(** * Functional-Cxx: the lazy [Stream], its move-only thunk holder and
      the in-place re-construction primitive

    A shallow embedding of
    - [detail::emplace]            (support/memory-hacks.hpp),
    - [detail::UniqueFunction]     (support/unique-function.hpp),
    - [Stream], [Stream::StreamIterator], [Stream::map], [std::begin],
      [std::end]                   (stream.hpp),
    followed by the properties of the Stream that the specification states.

    C++ objects live in a heap indexed by addresses; a [std::shared_ptr] is
    an optional address, the null pointer being [None].  Reference counting
    and reclamation are not modelled: a cell, once allocated, stays.
    Allocation does not fail.  What the world is after an exception has left
    a call is not followed. *)

From Stdlib Require Import String ZArith.
From stdpp Require Import base option list relations.

Local Open Scope nat_scope.

(** ** Outcomes of a C++ call, and the state monad built on them *)

(** A call either returns, or is left by an exception, or does something
    the language leaves undefined (dereferencing a null pointer, reading an
    object that is not there). *)
Inductive outcome (A : Type) : Type :=
| Returned (a : A)
| Thrown (what : string)
| Undefined.
Arguments Returned {A} a.
Arguments Thrown {A} what.
Arguments Undefined {A}.

(** A computation over a mutable world [W]. *)
Definition M (W A : Type) : Type := W -> outcome (A * W).

Definition ret {W A} (a : A) : M W A := fun w => Returned (a, w).

Definition bind {W A B} (m : M W A) (k : A -> M W B) : M W B :=
  fun w =>
    match m w with
    | Returned (a, w') => k a w'
    | Thrown what => Thrown what
    | Undefined => Undefined
    end.

Definition undefined {W A} : M W A := fun _ => Undefined.

Definition modify {W} (f : W -> W) : M W unit := fun w => Returned (tt, f w).

(** Lift an outcome that does not depend on the world. *)
Definition lift_outcome {W A} (o : outcome A) : M W A :=
  fun w =>
    match o with
    | Returned a => Returned (a, w)
    | Thrown what => Thrown what
    | Undefined => Undefined
    end.

Declare Scope cxx_scope.
Delimit Scope cxx_scope with cxx.
Notation "x <- m ;; k" := (bind m (fun x => k))
  (at level 100, m at next level, right associativity) : cxx_scope.
Notation "m ;;; k" := (bind m (fun _ => k))
  (at level 100, right associativity) : cxx_scope.
Local Open Scope cxx_scope.

(** ** support/unique-function.hpp *)

Section UniqueFunction.
(** [Fn] stands for the closures a [FunctionHolder<F>] can hold.  The
    virtual [FunctionHolderBase::operator()] is the parameter [dispatch]
    of [uf_call]: it runs the body of the closure held. *)
Context {Fn : Type}.

(** [std::unique_ptr<FunctionHolderBase> fh_] *)
Record UniqueFunction : Type := { fh_ : option Fn }.

(** [UniqueFunction(FA && f) : fh_(new FunctionHolder<FA>(std::forward<FA>(f)))] *)
Definition uf_make (f : Fn) : UniqueFunction := {| fh_ := Some f |}.

(** [UniqueFunction(UniqueFunction && uf) : fh_(std::move(uf.fh_))]:
    the new handle, and what is left of the argument. *)
Definition uf_move (uf : UniqueFunction) : UniqueFunction * UniqueFunction :=
  ({| fh_ := fh_ uf |}, {| fh_ := None |}).

(** [explicit operator bool() const noexcept { return (bool)fh_; }] *)
Definition uf_bool (uf : UniqueFunction) : bool :=
  match fh_ uf with Some _ => true | None => false end.

Context {W Args R : Type}.
Variable dispatch : Fn -> Args -> M W R.

(** [R operator()(Args&& ...args)]: [std::invoke] on the dereferenced
    [fh_], with the arguments forwarded.  The dereference is not guarded:
    on an empty [fh_] it is a null pointer dereference. *)
Definition uf_call (uf : UniqueFunction) (args : Args) : M W R :=
  match fh_ uf with
  | Some f => dispatch f args
  | None => undefined
  end.
End UniqueFunction.
Arguments UniqueFunction Fn : clear implicits.

(** ** support/memory-hacks.hpp *)

Section Emplace.
Context {W T Arg : Type}.

(** A [T&]: the object it designates, when there is a live one; what the
    world is once the destructor has run on that object; and the storage
    it occupies, into which an object can be put. *)
Record lvalue : Type := {
  load : W -> option T;
  vacate : W -> W;
  store : T -> W -> W
}.

(** What [Arg&& ...arg] refers to, as the constructor finds it when it
    runs: nothing, when what an argument referred to has been destroyed by
    then. *)
Definition forwarded : Type := W -> option Arg.

(** An argument that is a temporary of the calling expression: it lives
    until the call has returned. *)
Definition temporary (a : Arg) : forwarded := fun _ => Some a.

(** [T(std::forward<Arg>(arg)...)] *)
Variable construct : Arg -> T.

(** [template<typename T, typename ...Arg> T& emplace(T& t, Arg&& ...arg)]
    - [t.~T();] needs a live object in [t]: its destructor runs and the
      storage holds no object any more;
    - [new (&t) T(std::forward<Arg>(arg)...);] reads the arguments, which
      are references, and builds the new object in the storage of [t];
    - [return t;]. *)
Definition emplace (t : lvalue) (arg : forwarded) : M W lvalue :=
  fun w =>
    match load t w with
    | Some _ =>
        let w1 := vacate t w in
        match arg w1 with
        | Some a => Returned (t, store t (construct a) w1)
        | None => Undefined
        end
    | None => Undefined
    end.
End Emplace.
Arguments lvalue W T : clear implicits.
Arguments forwarded W Arg : clear implicits.

(** ** stream.hpp: the cells *)

(** Where a cell lives. *)
Abbreviation addr := nat (only parsing).

(** [using StreamT = std::shared_ptr<Stream<E>>]; [None] is [nullptr]. *)
Definition StreamT : Type := option addr.

Section Stream.
(** [E]: the elements; [Fn]: the closures given as generators; [A]: the
    state around the heap of cells that a generator may read and write. *)
Context {E Fn A : Type}.

(** [using F = detail::UniqueFunction<StreamT()>] *)
Definition F : Type := UniqueFunction Fn.

(** [boost::variant<StreamT, F>] *)
Inductive variant : Type :=
| which0 (s : StreamT)
| which1 (f : F).

Definition which (v : variant) : nat :=
  match v with which0 _ => 0 | which1 _ => 1 end.

(** [boost::get<StreamT>(v)] and [boost::get<F>(v)] *)
Definition get_StreamT (v : variant) : outcome StreamT :=
  match v with which0 s => Returned s | which1 _ => Thrown "boost::bad_get"%string end.
Definition get_F (v : variant) : outcome F :=
  match v with which1 f => Returned f | which0 _ => Thrown "boost::bad_get"%string end.

(** [E head_; mutable boost::variant<StreamT, F> tail_;] *)
Record Stream : Type := { head_ : E; tail_ : variant }.

(** The heap of cells of this element type, the state around it, and one
    piece of instrumentation that the program does not have: [forced]
    lists, latest first, the cells whose generator has been invoked. *)
Record World : Type := {
  cells : list Stream;
  forced : list addr;
  ambient : A
}.

Definition set_cells (c : list Stream) (w : World) : World :=
  {| cells := c; forced := forced w; ambient := ambient w |}.
Definition set_forced (l : list addr) (w : World) : World :=
  {| cells := cells w; forced := l; ambient := ambient w |}.
Definition set_ambient (a : A) (w : World) : World :=
  {| cells := cells w; forced := forced w; ambient := a |}.

(** The body of each generator closure: what
    [FunctionHolder<F>::operator()] runs. *)
Variable invoke : Fn -> M World StreamT.

(** [static StreamT makeShared(A1 && a1, A2 && a2)]: a new cell, built by
    [Stream(A1 && e, A2 && t) : head_(e), tail_(t)], at a new address. *)
Definition makeShared (e : E) (t : variant) : M World StreamT :=
  fun w =>
    Returned (Some (length (cells w)),
              set_cells (cells w ++ [{| head_ := e; tail_ := t |}]) w).

(** [static StreamT Nil() { return nullptr; }] *)
Definition Nil : StreamT := None.

(** [static std::shared_ptr<Stream<E>> Cell(A1 && e, A2 && t)] *)
Definition Cell (e : E) (t : variant) : M World StreamT := makeShared e t.

(** What [tail_(std::forward<A2>(t))] builds from a [StreamT] and from a
    closure. *)
Definition known (s : StreamT) : variant := which0 s.
Definition thunk (g : Fn) : variant := which1 (uf_make g).

(** [const E& head() const { return head_; }] *)
Definition head (this : addr) : M World E :=
  fun w =>
    match cells w !! this with
    | Some c => Returned (head_ c, w)
    | None => Undefined
    end.

(** The member [tail_] of the cell at [this], as an lvalue.  The heap of
    cells keeps no account of the variants destroyed: the one in the slot
    is there until the new one is put in its place. *)
Definition tail_slot (this : addr) : lvalue World variant := {|
  load w := tail_ <$> cells w !! this;
  vacate w := w;
  store v w :=
    set_cells (alter (fun c => {| head_ := head_ c; tail_ := v |}) this (cells w)) w
|}.

(** The world once the slot of [n] has been re-constructed around [s]. *)
Definition materialized (n : addr) (s : StreamT) (w : World) : World :=
  store (tail_slot n) (which0 s) w.

(** The slot of [n] holds a [StreamT], and it is [s]. *)
Definition settled (n : addr) (s : StreamT) (w : World) : Prop :=
  load (tail_slot n) w = Some (which0 s).

Definition read_tail_ (this : addr) : M World variant :=
  fun w =>
    match load (tail_slot this) w with
    | Some v => Returned (v, w)
    | None => Undefined
    end.

(** Instrumentation only. *)
Definition note_forced (this : addr) : M World unit :=
  modify (fun w => set_forced (this :: forced w) w).

(** [const StreamT& tail() const {
       if(tail_.which()) { detail::emplace(tail_, boost::get<F>(tail_)()); }
       return boost::get<StreamT>(tail_); }] *)
Definition tail (this : addr) : M World StreamT :=
  v <- read_tail_ this ;;
  match which v with
  | 0 => ret tt
  | S _ =>
      f <- lift_outcome (get_F v) ;;
      note_forced this ;;;
      s <- uf_call (fun g (_ : unit) => invoke g) f tt ;;
      _ <- emplace which0 (tail_slot this) (temporary s) ;;
      ret tt
  end ;;;
  v' <- read_tail_ this ;;
  lift_outcome (get_StreamT v').

(** *** [class StreamIterator] *)

(** [StreamT location_;] *)
Record StreamIterator : Type := { location_ : StreamT }.

(** [void increment() { location_ = location_->tail(); }] *)
Definition increment (it : StreamIterator) : M World StreamIterator :=
  match location_ it with
  | Some c => s <- tail c ;; ret {| location_ := s |}
  | None => undefined
  end.

(** [const E & dereference() const { return location_->head(); }] *)
Definition dereference (it : StreamIterator) : M World E :=
  match location_ it with
  | Some c => head c
  | None => undefined
  end.

(** [bool equal(const StreamIterator & other) const
       { return location_ == other.location_; }] *)
Definition equal (it other : StreamIterator) : bool :=
  bool_decide (location_ it = location_ other).

(** [StreamIterator begin() { return StreamIterator(shared_from_this()); }] *)
Definition begin (this : addr) : StreamIterator := {| location_ := Some this |}.

(** [static StreamIterator end() { return StreamIterator(nullptr); }] *)
Definition end_ : StreamIterator := {| location_ := None |}.

(** [std::end(const std::shared_ptr<Stream<E>> &s)] *)
Definition std_end (s : StreamT) : StreamIterator := end_.

(** [std::begin(const std::shared_ptr<Stream<E>> &s)
       { return s ? s->begin() : end(s); }] *)
Definition std_begin (s : StreamT) : StreamIterator :=
  match s with
  | Some c => begin c
  | None => std_end s
  end.

(** [std::begin(std::shared_ptr<Stream<E>> &&consume)]: the argument is
    moved into a local [s], which leaves it null; then as above. *)
Definition std_begin_consume (consume : StreamT) : StreamIterator * StreamT :=
  let s := consume in
  (match s with Some c => begin c | None => std_end s end, None).

(** *** Clients of the iterator *)

(** [n] times [++it]. *)
Fixpoint advance (n : nat) (it : StreamIterator) : M World StreamIterator :=
  match n with
  | 0 => ret it
  | S n' => it' <- increment it ;; advance n' it'
  end.

(** The first [n] elements from [it] on, as [std::copy_n(it, n, out)]
    delivers them: read [*it], and step only when more is to be read. *)
Fixpoint copy_n (n : nat) (it : StreamIterator) : M World (list E) :=
  match n with
  | 0 => ret []
  | S n' =>
      e <- dereference it ;;
      match n' with
      | 0 => ret [e]
      | S _ =>
          it' <- increment it ;;
          l <- copy_n n' it' ;;
          ret (e :: l)
      end
  end.

(** The number of cells [it] is at: one, or none past the end. *)
Definition cells_at (it : StreamIterator) : nat :=
  match location_ it with Some _ => 1 | None => 0 end.

(** [it] is the past-the-end iterator or designates a cell. *)
Definition valid (it : StreamIterator) (w : World) : Prop :=
  match location_ it with
  | Some c => is_Some (cells w !! c)
  | None => True
  end.

(** [for (it = first; it != end(); ++it) out.push_back( *it );] with a
    bound on the number of rounds, as a Stream need not end.  The result
    also has the iterator the loop stopped at. *)
Fixpoint collect (fuel : nat) (it : StreamIterator)
  : M World (list E * StreamIterator) :=
  match fuel with
  | 0 => ret ([], it)
  | S fuel' =>
      if equal it end_ then ret ([], it)
      else
        e <- dereference it ;;
        it' <- increment it ;;
        r <- collect fuel' it' ;;
        ret (e :: r.1, r.2)
  end.

(** The slot of [n] holds a generator. *)
Definition pending (n : addr) (w : World) : Prop :=
  exists f, load (tail_slot n) w = Some (which1 f).

(** The [n] steps from [it] on are over a part of the Stream that nobody
    has been over: each step finds a generator in the slot it asks. *)
Fixpoint fresh_run (n : nat) (it : StreamIterator) (w : World) : Prop :=
  match n with
  | 0 => True
  | S n' =>
      match location_ it with
      | Some c =>
          pending c w /\
          match increment it w with
          | Returned (it', w') => fresh_run n' it' w'
          | _ => True
          end
      | None => True
      end
  end.

(** [n] calls of [this->tail()] in a row, with what each returned. *)
Fixpoint tail_times (n : nat) (this : addr) : M World (list StreamT) :=
  match n with
  | 0 => ret []
  | S n' => s <- tail this ;; l <- tail_times n' this ;; ret (s :: l)
  end.
End Stream.
Arguments variant Fn : clear implicits.
Arguments Stream E Fn : clear implicits.
Arguments World E Fn A : clear implicits.


(** ** stream.hpp: [Stream::map] *)

Section Map.
(** The source is a [Stream<E>] with closures [Fn] in a state [A]; the
    result is a [Stream<E2>]. *)
Context {E Fn A E2 : Type}.
Variable invoke : Fn -> M (World E Fn A) StreamT.

(** The two closures that [map] and [MapF] store in
    [std::function<StreamT()> src_]:
    - [[sharedThis = shared_from_this()](){ return sharedThis; }]
    - [[src](){ return src->tail(); }] *)
Inductive SrcFn : Type :=
| ReturnShared (sharedThis : addr)
| TailOf (src : addr).

Definition SrcFn_call (f : SrcFn) : M (World E Fn A) StreamT :=
  match f with
  | ReturnShared sharedThis => ret (Some sharedThis)
  | TailOf src => tail invoke src
  end.

(** [class MapF { std::function<StreamT()> src_; Transform transform_; }] *)
Record MapF : Type := { src_ : SrcFn; transform_ : E -> E2 }.

(** Around the heap of the cells of the result: the world of the source,
    and one more piece of instrumentation, the arguments [transform_] has
    been applied to, latest first. *)
Record MapAmbient : Type := {
  source : World E Fn A;
  applied : list E
}.

Local Abbreviation MapWorld := (World E2 MapF MapAmbient).

(** Run in the world of the source. *)
Definition in_source {X} (m : M (World E Fn A) X) : M MapWorld X :=
  fun w =>
    match m (source (ambient w)) with
    | Returned (x, s') =>
        Returned (x, set_ambient {| source := s'; applied := applied (ambient w) |} w)
    | Thrown what => Thrown what
    | Undefined => Undefined
    end.

(** [transform_(e)] *)
Definition apply_transform (transform : E -> E2) (e : E) : M MapWorld E2 :=
  fun w =>
    Returned (transform e,
              set_ambient {| source := source (ambient w);
                             applied := e :: applied (ambient w) |} w).

(** [MapStreamT<Transform> MapF::operator()() {
       auto src = src_();
       if (src) {
         auto transformed_head = transform_(src->head());
         return MapCellT<Transform>::Cell(std::move(transformed_head),
                  MapF([src](){ return src->tail(); }, std::move(transform_)));
       } else {
         return MapCellT<Transform>::Nil();
       } }] *)
Definition MapF_call (m : MapF) : M MapWorld StreamT :=
  src <- in_source (SrcFn_call (src_ m)) ;;
  match src with
  | Some c =>
      h <- in_source (head c) ;;
      transformed_head <- apply_transform (transform_ m) h ;;
      Cell transformed_head
           (thunk {| src_ := TailOf c; transform_ := transform_ m |})
  | None => ret Nil
  end.

(** [MapStreamT<Transform> map(Transform && transform) {
       return MapF([sharedThis = shared_from_this()](){ return sharedThis; },
                   std::forward<Transform>(transform))(); }] *)
Definition map (this : addr) (transform : E -> E2) : M MapWorld StreamT :=
  MapF_call {| src_ := ReturnShared this; transform_ := transform |}.

(** The cell that [MapF::operator()] builds when its source is at the cell
    [c], whose content is [c0]. *)
Definition mapped_cell (transform : E -> E2) (c : addr) (c0 : Stream E Fn)
  : Stream E2 MapF :=
  {| head_ := transform (head_ c0);
     tail_ := thunk {| src_ := TailOf c; transform_ := transform |} |}.

(** An iterator [it1] of the result goes along with an iterator [it0] of the
    source: both are past the end, or [it1] is at the cell built from the
    cell [it0] is at, with its tail not yet asked for. *)
Definition mirrors (transform : E -> E2) (it1 it0 : StreamIterator)
    (w : MapWorld) : Prop :=
  match location_ it1, location_ it0 with
  | None, None => True
  | Some m, Some c =>
      exists c0, cells (source (ambient w)) !! c = Some c0 /\
                 cells w !! m = Some (mapped_cell transform c c0)
  | _, _ => False
  end.

(** A world for the result of [map] with no cell of the result yet. *)
Definition map_world (w0 : World E Fn A) : MapWorld :=
  {| cells := []; forced := []; ambient := {| source := w0; applied := [] |} |}.
End Map.
Arguments SrcFn : clear implicits.
Arguments MapF E E2 : clear implicits.
Arguments MapAmbient E Fn A : clear implicits.
Abbreviation MapWorld E Fn A E2 := (World E2 (MapF E E2) (MapAmbient E Fn A)).

(** ** example/stream.cc: the Fibonacci generator *)

(** [class FibStreamF { size_t a_; size_t b_; }] *)
Record FibStreamF : Type := { a_ : Z; b_ : Z }.

Abbreviation FibWorld := (World Z FibStreamF unit).

(** [size_t] arithmetic *)
Definition size_t_add (x y : Z) : Z := ((x + y) mod 2 ^ 64)%Z.
Definition size_t_sub (x y : Z) : Z := ((x - y) mod 2 ^ 64)%Z.

(** [std::shared_ptr<Stream<size_t>> operator()() const {
       return Stream<size_t>::Cell(a_, FibStreamF(b_, a_ + b_)); }] *)
Definition FibStreamF_call (g : FibStreamF) : M FibWorld StreamT :=
  Cell (a_ g) (thunk {| a_ := b_ g; b_ := size_t_add (a_ g) (b_ g) |}).

(** [static std::shared_ptr<Stream<size_t>> first() { return FibStreamF()(); }]
    with [FibStreamF() : a_(0), b_(1)] *)
Definition FibStreamF_first : M FibWorld StreamT :=
  FibStreamF_call {| a_ := 0; b_ := 1 |}.

Definition empty_world {E Fn} : World E Fn unit :=
  {| cells := []; forced := []; ambient := tt |}.

(** What a run returned, the world left aside. *)
Definition returned {W X} (o : outcome (X * W)) : option X :=
  match o with Returned (x, _) => Some x | _ => None end.


(** From [main]: [std::copy_n(FibStreamF::first()->begin(), n, out)] *)
Definition main_fib (n : nat) : M FibWorld (list Z) :=
  s <- FibStreamF_first ;;
  copy_n FibStreamF_call n (std_begin s).

(** From [main]:
    [std::copy_n(FibStreamF::first()->tail()
                   ->map([](size_t n){return n - 1;})->begin(), 5, out)];
    [->] on a null pointer is undefined. *)
Definition main_fib_map (n : nat) : M (MapWorld Z FibStreamF unit Z) (list Z) :=
  s <- in_source FibStreamF_first ;;
  match s with
  | None => undefined
  | Some c =>
      t <- in_source (tail FibStreamF_call c) ;;
      match t with
      | None => undefined
      | Some c' =>
          m <- map FibStreamF_call c' (fun n => size_t_sub n 1) ;;
          copy_n (MapF_call FibStreamF_call) n (std_begin m)
      end
  end.

(** The world after [FibStreamF::first()], and after two steps of an
    iterator from its first cell on. *)
Definition fib_w0 : FibWorld :=
  {| cells := [{| head_ := 0%Z; tail_ := thunk {| a_ := 1; b_ := 1 |} |}];
     forced := [];
     ambient := tt |}.

Definition fib_w1 : FibWorld :=
  {| cells := [{| head_ := 0%Z; tail_ := known (Some 1) |};
               {| head_ := 1%Z; tail_ := thunk {| a_ := 1; b_ := 2 |} |}];
     forced := [0];
     ambient := tt |}.

Definition fib_w2 : FibWorld :=
  {| cells := [{| head_ := 0%Z; tail_ := known (Some 1) |};
               {| head_ := 1%Z; tail_ := known (Some 2) |};
               {| head_ := 1%Z; tail_ := thunk {| a_ := 2; b_ := 3 |} |}];
     forced := [1; 0];
     ambient := tt |}.



(** *** Generators that force cells of their own Stream

    Three closures a client may give as generators of a [Stream<size_t>]:
    - [[]{ return Stream<size_t>::Nil(); }]
    - [[src]{ return src->tail(); }], which shares the tail of [src];
    - [[&first, &src]{ if(first) { first = false; return src->tail(); }
                       return Stream<size_t>::Nil(); }],
      with a [bool first] of the client around the Stream.
    [src] is a cell of the Stream the generator belongs to.  [depth] is the
    number of generator calls, one inside the other, that there is room
    for. *)
Inductive ShareFn : Type :=
| Stop
| TailOfG (src : nat)
| Once (src : nat).

Abbreviation ShareWorld := (World Z ShareFn bool).

Fixpoint ShareFn_call (depth : nat) (g : ShareFn) : M ShareWorld StreamT :=
  match g with
  | Stop => ret Nil
  | TailOfG src =>
      match depth with
      | 0 => undefined
      | S d => tail (ShareFn_call d) src
      end
  | Once src =>
      fun w =>
        if ambient w then
          match depth with
          | 0 => Undefined
          | S d => tail (ShareFn_call d) src (set_ambient false w)
          end
        else Returned (Nil, w)
  end.

(** A cell that ends its Stream when asked and a cell that shares its tail;
    and the same after [tail] on the second. *)
Definition share_w0 : ShareWorld :=
  {| cells := [{| head_ := 10%Z; tail_ := thunk Stop |};
               {| head_ := 20%Z; tail_ := thunk (TailOfG 0) |}];
     forced := [];
     ambient := true |}.





(** ** What the properties below are stated with *)

Section Discipline.
Context {E Fn A : Type}.
Variable invoke : Fn -> M (World E Fn A) StreamT.

(** How often the generator of the cell at [n] has been invoked. *)
Definition invocations (n : addr) (w : World E Fn A) : nat :=
  count_occ Nat.eq_dec (forced w) n.

(** Generators that only build cells: a generator that returns has added
    cells to the heap of its own Stream type and has left the cells that
    were there, and the record of invocations, as they were.  It may have
    done anything to the state around.  [FibStreamF] is such a generator,
    and so is [MapF]. *)
Definition allocates_only : Prop :=
  forall g w s w',
    invoke g w = Returned (s, w') ->
    forced w' = forced w /\ exists new, cells w' = cells w ++ new.

(** What the class lets any generator do to the cell at [n], and no more:
    [head_] has no writer but the constructor, and [tail_] is private and
    written by [tail] alone, which writes a slot that holds a generator.
    A generator that returns has left the head of [n] as it was; and when
    the slot of [n] held a [StreamT], it holds it still and the generator
    of [n] has not been invoked.  A generator may have forced any cell of
    its own Stream, built cells, and done anything to the state around. *)
Definition keeps_head (n : addr) : Prop :=
  forall g w s w' c,
    invoke g w = Returned (s, w') -> cells w !! n = Some c ->
    exists c', cells w' !! n = Some c' /\ head_ c' = head_ c.

Definition keeps_slot (n : addr) : Prop :=
  forall g w s w' t,
    invoke g w = Returned (s, w') -> settled n t w ->
    settled n t w' /\ invocations n w' = invocations n w.


(** One use of the Stream by a client: forcing some tail, building a cell,
    calling a generator closure directly (as [FibStreamF::first] does), or
    changing the state around. *)
Inductive step (w w' : World E Fn A) : Prop :=
| step_tail (this : addr) (s : StreamT) :
    tail invoke this w = Returned (s, w') -> step w w'
| step_Cell (e : E) (t : variant Fn) (s : StreamT) :
    Cell e t w = Returned (s, w') -> step w w'
| step_invoke (g : Fn) (s : StreamT) :
    invoke g w = Returned (s, w') -> step w w'
| step_ambient (a : A) :
    w' = set_ambient a w -> step w w'.

(** [Cell(x1, Cell(x2, ... Nil()))], the innermost call first. *)
Fixpoint of_list (l : list E) : M (World E Fn A) StreamT :=
  match l with
  | [] => ret Nil
  | x :: l' => t <- of_list l' ;; Cell x (known t)
  end.
(** What [of_list l] allocates when the next free address is [base], and
    what it returns. *)
Fixpoint chain (base : addr) (l : list E) : list (Stream E Fn) * StreamT :=
  match l with
  | [] => ([], Nil)
  | x :: l' =>
      let r := chain base l' in
      (r.1 ++ [{| head_ := x; tail_ := known r.2 |}], Some (base + length r.1))
  end.
End Discipline.
Arguments chain {E} Fn base l.

(** [Cell(1, Cell(2, Nil()))] *)
Definition one_two {Fn A} : M (World Z Fn A) StreamT :=
  inner <- Cell 2%Z (known Nil) ;; Cell 1%Z (known inner).

(** ** What the further properties are stated with *)

(** The Fibonacci numbers. *)
Fixpoint fib (n : nat) : Z :=
  match n with
  | 0 => 0%Z
  | S n' =>
      match n' with
      | 0 => 1%Z
      | S n'' => (fib n' + fib n'')%Z
      end
  end.

(** ** example/stream.cc: the ROT13 generator *)

(** [char o = (i >= 'A' && i <= 'Z') ? ((((i - 'A') + 13) % 26) + 'A')
             : ((i >= 'a' && i <= 'z') ? ((((i - 'a') + 13) % 26) + 'a') : i);]
    with the character codes of ASCII; the arithmetic is on [int], and [%]
    is the remainder of the truncating division. *)
Definition rot13 (i : Z) : Z :=
  (if (65 <=? i) && (i <=? 90) then Z.rem (i - 65 + 13) 26 + 65
   else if (97 <=? i) && (i <=? 122) then Z.rem (i - 97 + 13) 26 + 97
   else i)%Z.

Definition isupper (i : Z) : bool := ((65 <=? i) && (i <=? 90))%Z.
Definition islower (i : Z) : bool := ((97 <=? i) && (i <=? 122))%Z.

(** What the generator uses of a [std::istream]: the characters still to be
    read and two of the state flags. *)
Record istream : Type := {
  rdbuf : list Z;
  eofbit : bool;
  failbit : bool
}.

(** A stream on which nothing has been read yet, as
    [std::istringstream rot13(...)] is. *)
Definition fresh_istream (l : list Z) : istream :=
  {| rdbuf := l; eofbit := false; failbit := false |}.

(** [inp.eof()] *)
Definition eof (inp : istream) : bool := eofbit inp.

(** [inp >> std::noskipws >> i] for a [char i]: on a stream that is not
    good the extraction fails and sets [failbit]; otherwise the next
    character is taken, and when there is none the extraction fails and sets
    [eofbit] and [failbit].  A failed extraction stores nothing in [i]. *)
Definition extract_char (inp : istream) : option Z * istream :=
  if eofbit inp || failbit inp
  then (None, {| rdbuf := rdbuf inp; eofbit := eofbit inp; failbit := true |})
  else
    match rdbuf inp with
    | c :: rest => (Some c, {| rdbuf := rest; eofbit := false; failbit := false |})
    | [] => (None, {| rdbuf := []; eofbit := true; failbit := true |})
    end.

(** [class ROT13StreamF { std::istream & inp_; }]: the stream referred to
    is the state around the cells. *)
Inductive ROT13StreamF : Type := ROT13StreamF_inp.

Abbreviation ROT13World := (World Z ROT13StreamF istream).

(** [StreamT operator()() const {
       if(inp_.eof()){ return CellT::Nil(); }
       else { char i; inp_ >> std::noskipws >> i; char o = ...;
              return CellT::Cell(o, ROT13StreamF(inp_)); } }]
    After a failed extraction [i] has no value, and computing [o] reads it. *)
Definition ROT13StreamF_call (g : ROT13StreamF) : M ROT13World StreamT :=
  fun w =>
    if eof (ambient w) then Returned (Nil, w)
    else
      match extract_char (ambient w) with
      | (Some i, inp') =>
          Cell (rot13 i) (thunk ROT13StreamF_inp) (set_ambient inp' w)
      | (None, _) => Undefined
      end.

(** ** support/memory-hacks.hpp: storage that may hold no object yet *)

Section MaybeUninitialized.
Context {T Arg : Type}.

(** What is at an address of the free store: storage with no object in it,
    storage with a live object, or storage given back. *)
Inductive block : Type :=
| Raw
| Live (v : T)
| Freed.

(** The free store, and one piece of instrumentation: the objects whose
    destructor has run, first to last. *)
Record Storage : Type := {
  blocks : list block;
  destroyed : list T
}.

(** [new AlignedFor<T>] *)
Definition new_storage : M Storage addr :=
  fun h =>
    Returned (length (blocks h),
              {| blocks := blocks h ++ [Raw]; destroyed := destroyed h |}).

(** [t->~T()]: there must be a live object. *)
Definition destroy (t : addr) : M Storage unit :=
  fun h =>
    match blocks h !! t with
    | Some (Live v) =>
        Returned (tt, {| blocks := <[t := Raw]> (blocks h);
                         destroyed := destroyed h ++ [v] |})
    | _ => Undefined
    end.

(** [new (t) T(...)]: there must be storage; an object that was live in it
    is gone without its destructor having run. *)
Definition construct_at (t : addr) (v : T) : M Storage unit :=
  fun h =>
    match blocks h !! t with
    | Some Raw | Some (Live _) =>
        Returned (tt, {| blocks := <[t := Live v]> (blocks h);
                         destroyed := destroyed h |})
    | _ => Undefined
    end.

(** [delete storage], on an [AlignedFor<T>*]: the storage is given back;
    no destructor of [T] runs. *)
Definition delete_storage (t : addr) : M Storage unit :=
  fun h =>
    match blocks h !! t with
    | Some Raw | Some (Live _) =>
        Returned (tt, {| blocks := <[t := Freed]> (blocks h);
                         destroyed := destroyed h |})
    | _ => Undefined
    end.

(** [class AlignedMaybeUninitializedDeleter { std::unique_ptr<bool> initialized_; }] *)
Record AlignedMaybeUninitializedDeleter : Type := { initialized_ : option bool }.

Definition used_once : string :=
  "An AlignedMaybeUninitializedDeleter may be used at most once"%string.

(** [AlignedMaybeUninitializedDeleter() : initialized_(std::make_unique<bool>(false))] *)
Definition Deleter_new : AlignedMaybeUninitializedDeleter :=
  {| initialized_ := Some false |}.

(** [bool& initialized() { if(initialized_) { return *initialized_; }
                          else { throw std::runtime_error(...); } }] *)
Definition initialized (d : AlignedMaybeUninitializedDeleter) : outcome bool :=
  match initialized_ d with
  | Some b => Returned b
  | None => Thrown used_once
  end.

(** [void initialize() { initialized() = true; }] *)
Definition initialize (d : AlignedMaybeUninitializedDeleter)
  : outcome AlignedMaybeUninitializedDeleter :=
  match initialized d with
  | Returned _ => Returned {| initialized_ := Some true |}
  | Thrown what => Thrown what
  | Undefined => Undefined
  end.

(** [void reset() { initialized_ = std::make_unique<bool>(false); }] *)
Definition reset (d : AlignedMaybeUninitializedDeleter)
  : AlignedMaybeUninitializedDeleter :=
  {| initialized_ := Some false |}.

(** [void operator()(T *t) {
       if(t) {
         if(initialized()) { t->~T(); }
         auto storage = std::launder(reinterpret_cast<AlignedFor<T>*>(t));
         delete storage;
         initialized_ = nullptr;
       } }] *)
Definition Deleter_call (d : AlignedMaybeUninitializedDeleter) (t : option addr)
  : M Storage AlignedMaybeUninitializedDeleter :=
  match t with
  | Some a =>
      b <- lift_outcome (initialized d) ;;
      (if b then destroy a else ret tt) ;;;
      delete_storage a ;;;
      ret {| initialized_ := None |}
  | None => ret d
  end.

(** [using UniqueMaybePtr = std::unique_ptr<T, AlignedMaybeUninitializedDeleter<T>>] *)
Record UniqueMaybePtr : Type := {
  get : option addr;
  get_deleter : AlignedMaybeUninitializedDeleter
}.

(** [UniqueMaybePtr<T> make_unique_uninitialized() {
       return UniqueMaybePtr<T>(std::launder(reinterpret_cast<T*>(new AlignedFor<T>))); }] *)
Definition make_unique_uninitialized : M Storage UniqueMaybePtr :=
  a <- new_storage ;;
  ret {| get := Some a; get_deleter := Deleter_new |}.

(** The destructor of the [std::unique_ptr]: the deleter is called when the
    pointer held is not null. *)
Definition UniqueMaybePtr_destroy (p : UniqueMaybePtr) : M Storage UniqueMaybePtr :=
  match get p with
  | Some a =>
      d <- Deleter_call (get_deleter p) (Some a) ;;
      ret {| get := None; get_deleter := d |}
  | None => ret p
  end.

(** [T(std::forward<Args>(args)...)] *)
Variable construct : Arg -> T.

(** [T& emplaceMaybeUninitialized(T* t, bool& initialized, Args&& ...args) {
       if(initialized) { t->~T(); }
       new (t) T(std::forward<Args>(args)...);
       initialized = true;
       return *t; }]
    The result has what [initialized] has become. *)
Definition emplaceMaybeUninitialized (t : option addr) (initialized : bool)
    (args : Arg) : M Storage (addr * bool) :=
  match t with
  | Some a =>
      (if initialized then destroy a else ret tt) ;;;
      construct_at a (construct args) ;;;
      ret (a, true)
  | None => undefined
  end.

(** [emplaceMaybeUninitialized(p.get(), p.get_deleter().initialized(), args...)],
    the use that the documentation of [make_unique_uninitialized] gives. *)
Definition assign (p : UniqueMaybePtr) (args : Arg) : M Storage UniqueMaybePtr :=
  b <- lift_outcome (initialized (get_deleter p)) ;;
  r <- emplaceMaybeUninitialized (get p) b args ;;
  ret {| get := get p; get_deleter := {| initialized_ := Some r.2 |} |}.

Fixpoint assign_all (p : UniqueMaybePtr) (l : list Arg) : M Storage UniqueMaybePtr :=
  match l with
  | [] => ret p
  | args :: l' => p' <- assign p args ;; assign_all p' l'
  end.

(** The object in a block, if there is one. *)
Definition object_in (b : block) : list T :=
  match b with Live v => [v] | _ => [] end.

(** The flag says what the storage holds. *)
Definition agrees (initialized : bool) (b : block) : Prop :=
  match b with
  | Raw => initialized = false
  | Live _ => initialized = true
  | Freed => False
  end.
End MaybeUninitialized.
Arguments block T : clear implicits.
Arguments Storage T : clear implicits.


(** ** flat-iterator.hpp *)

(** [boost::iterator_range<OuterIterator>]: a pair of positions in the outer
    container. *)
Record iterator_range : Type := { range_begin : nat; range_end : nat }.

(** The inner iterators: the value-initialized [InnerIterator {}], or the
    position [j] in the [i]-th inner container. *)
Inductive InnerIterator : Type :=
| Singular
| Inner (i j : nat).

(** [boost::iterator_range<OuterIterator> outerPos_; InnerIterator innerPos_;] *)
Record FlatIterator : Type := {
  outerPos_ : iterator_range;
  innerPos_ : InnerIterator
}.

Global Instance iterator_range_eq_dec : EqDecision iterator_range.
Proof. solve_decision. Defined.
Global Instance InnerIterator_eq_dec : EqDecision InnerIterator.
Proof. solve_decision. Defined.
Global Instance FlatIterator_eq_dec : EqDecision FlatIterator.
Proof. solve_decision. Defined.

Section FlatIterator.
(** The world is the outer container, a range of ranges of [E], which the
    iterators read and never write. *)
Context {E : Type} `{EqDecision E}.
Local Abbreviation Outer := (list (list E)).

(** [range.empty()] *)
Definition range_empty (r : iterator_range) : bool :=
  bool_decide (range_begin r = range_end r).

(** [range.advance_begin(n)] *)
Definition advance_begin (n : nat) (r : iterator_range) : iterator_range :=
  {| range_begin := range_begin r + n; range_end := range_end r |}.

(** The elements of the outer container that a range goes over. *)
Definition range_contents (c : Outer) (r : iterator_range) : Outer :=
  take (range_end r - range_begin r) (drop (range_begin r) c).

(** [l == r] on two [boost::iterator_range]: the ranges have equal
    elements, as [boost::equal] finds. *)
Definition range_equal (l r : iterator_range) : M Outer bool :=
  fun c => Returned (bool_decide (range_contents c l = range_contents c r), c).

(** [*outer], for an outer iterator at position [b]. *)
Definition outer_dereference (b : nat) : M Outer (list E) :=
  fun c =>
    match c !! b with
    | Some v => Returned (v, c)
    | None => Undefined
    end.

(** [outer->begin()] and [outer->end()] *)
Definition inner_begin (b : nat) : M Outer InnerIterator :=
  v <- outer_dereference b ;; ret (Inner b 0).
Definition inner_end (b : nat) : M Outer InnerIterator :=
  v <- outer_dereference b ;; ret (Inner b (length v)).

(** [x == y] on inner iterators: defined on two iterators into the same
    inner container and on two value-initialized ones. *)
Definition inner_equal (x y : InnerIterator) : M Outer bool :=
  lift_outcome
    match x, y with
    | Singular, Singular => Returned true
    | Inner i j, Inner i' j' =>
        if bool_decide (i = i') then Returned (bool_decide (j = j')) else Undefined
    | _, _ => Undefined
    end.

(** [++x] *)
Definition inner_increment (x : InnerIterator) : M Outer InnerIterator :=
  match x with
  | Inner i j =>
      v <- outer_dereference i ;;
      if bool_decide (j < length v) then ret (Inner i (S j)) else undefined
  | Singular => undefined
  end.

(** [*x] *)
Definition inner_dereference (x : InnerIterator) : M Outer E :=
  match x with
  | Inner i j =>
      v <- outer_dereference i ;;
      match v !! j with
      | Some e => ret e
      | None => undefined
      end
  | Singular => undefined
  end.

(** The loop of [skipEmpty]:
    [while (innerPos_ == outerPos_.begin()->end()) {
       outerPos_.advance_begin(1);
       if (outerPos_.empty()) { innerPos_ = InnerIterator {}; break; }
       else { innerPos_ = outerPos_.begin()->begin(); } }]
    with a bound on its rounds. *)
Fixpoint skipEmpty_loop (fuel : nat) (it : FlatIterator) : M Outer FlatIterator :=
  match fuel with
  | 0 => undefined
  | S fuel' =>
      e <- inner_end (range_begin (outerPos_ it)) ;;
      at_end <- inner_equal (innerPos_ it) e ;;
      if at_end then
        let r := advance_begin 1 (outerPos_ it) in
        if range_empty r then ret {| outerPos_ := r; innerPos_ := Singular |}
        else
          i <- inner_begin (range_begin r) ;;
          skipEmpty_loop fuel' {| outerPos_ := r; innerPos_ := i |}
      else ret it
  end.

(** [void skipEmpty() { if (!outerPos_.empty()) { while ... } }]
    Each round of the loop reads the outer container at the beginning of the
    range and then moves that beginning one forward, so that the loop has
    ended, in a result or in a read past the container, within as many
    rounds as the bound given here. *)
Definition skipEmpty (it : FlatIterator) : M Outer FlatIterator :=
  if range_empty (outerPos_ it) then ret it
  else fun c => skipEmpty_loop (S (length c - range_begin (outerPos_ it))) it c.

(** [FlatIterator(const boost::iterator_range<OuterIterator>& range)
       : outerPos_(range),
         innerPos_(range.empty() ? InnerIterator {} : (range.begin()->begin()))
     { skipEmpty(); }] *)
Definition FlatIterator_new (range : iterator_range) : M Outer FlatIterator :=
  i <- (if range_empty range then ret Singular
        else inner_begin (range_begin range)) ;;
  skipEmpty {| outerPos_ := range; innerPos_ := i |}.

(** [makeFlatIterator(OuterIterator begin, OuterIterator end)] *)
Definition makeFlatIterator (b e : nat) : M Outer FlatIterator :=
  FlatIterator_new {| range_begin := b; range_end := e |}.

(** [makeFlatIterator(const Container& c)
       { return makeFlatIterator(c.begin(), c.end()); }] *)
Definition makeFlatIterator_container : M Outer FlatIterator :=
  fun c => makeFlatIterator 0 (length c) c.

(** [void increment() { ++innerPos_; skipEmpty(); }] *)
Definition flat_increment (it : FlatIterator) : M Outer FlatIterator :=
  i <- inner_increment (innerPos_ it) ;;
  skipEmpty {| outerPos_ := outerPos_ it; innerPos_ := i |}.

(** [ReferenceType dereference() const { return *innerPos_; }] *)
Definition flat_dereference (it : FlatIterator) : M Outer E :=
  inner_dereference (innerPos_ it).

(** [bool equal(const FlatIterator<OuterIterator>& other) const
       { return (outerPos_ == other.outerPos_) && (innerPos_ == other.innerPos_); }] *)
Definition flat_equal (it other : FlatIterator) : M Outer bool :=
  same <- range_equal (outerPos_ it) (outerPos_ other) ;;
  if same then inner_equal (innerPos_ it) (innerPos_ other) else ret false.

(** [std::copy(first, last, out)], with a bound on the rounds of its loop;
    the result also has the iterator the loop stopped at. *)
Fixpoint flat_copy (fuel : nat) (first last : FlatIterator)
  : M Outer (list E * FlatIterator) :=
  match fuel with
  | 0 => ret ([], first)
  | S fuel' =>
      stop <- flat_equal first last ;;
      if stop then ret ([], first)
      else
        e <- flat_dereference first ;;
        first' <- flat_increment first ;;
        r <- flat_copy fuel' first' last ;;
        ret (e :: r.1, r.2)
  end.

(** An iterator at rest: past the last inner range, or at an element. *)
Definition at_rest (c : Outer) (it : FlatIterator) : Prop :=
  range_begin (outerPos_ it) <= range_end (outerPos_ it) <= length c /\
  match innerPos_ it with
  | Singular => range_begin (outerPos_ it) = range_end (outerPos_ it)
  | Inner i j =>
      i = range_begin (outerPos_ it) /\ i < range_end (outerPos_ it) /\
      exists v, c !! i = Some v /\ j < length v
  end.

(** The past-the-end iterator [makeFlatIterator(end, end)]. *)
Definition flat_end (e : nat) : FlatIterator :=
  {| outerPos_ := {| range_begin := e; range_end := e |}; innerPos_ := Singular |}.

(** The elements from [it] on. *)
Definition remaining (c : Outer) (it : FlatIterator) : list E :=
  match innerPos_ it with
  | Singular => []
  | Inner i j =>
      drop j (default [] (c !! i))
      ++ concat (range_contents c (advance_begin 1 (outerPos_ it)))
  end.
End FlatIterator.

(** [foo] of example/flat-iterator.cc *)
Definition foo : list (list Z) :=
  [[]; []; [0]; [1; 2; 3]; []; []; []; [4]; []; [5]; []]%Z.

(** ** optional-utils.hpp: a [boost::optional] as a range *)

(** A [const boost::optional<E>&]: the static [typedNone_], or the optional
    object at an address. *)
Inductive optional_ref : Type :=
| typedNone_
| optional_at (a : nat).

Global Instance optional_ref_eq_dec : EqDecision optional_ref.
Proof. solve_decision. Defined.

(** [std::reference_wrapper<const boost::optional<E>> pos_;] *)
Record OptionalIterator : Type := { pos_ : optional_ref }.

(** [OptionalRangeOwning] and [OptionalRangeBorrowed]: the one holds its
    [boost::optional<E> contents_] and the other refers to one; either way
    [contents_] is an optional object somewhere. *)
Record OptionalRange : Type := { contents_ : optional_ref }.

Section Optional.
(** The world is the optional objects there are, by address. *)
Context {E : Type}.
Local Abbreviation Optionals := (list (option E)).

(** Reading the [boost::optional] that a reference designates;
    [typedNone_] is [boost::none]. *)
Definition read_optional (r : optional_ref) : M Optionals (option E) :=
  match r with
  | typedNone_ => ret None
  | optional_at a =>
      fun m =>
        match m !! a with
        | Some o => Returned (o, m)
        | None => Undefined
        end
  end.

(** [static const boost::optional<E>& typedNone()] *)
Definition typedNone : optional_ref := typedNone_.

(** [void increment() { pos_ = typedNone(); }] *)
Definition optional_increment (it : OptionalIterator) : OptionalIterator :=
  {| pos_ := typedNone |}.

(** [const E & dereference() const { return *(pos_.get()); }]: [*] on an
    optional that holds nothing is undefined. *)
Definition optional_dereference (it : OptionalIterator) : M Optionals E :=
  o <- read_optional (pos_ it) ;;
  match o with
  | Some x => ret x
  | None => undefined
  end.

(** [bool equal(const OptionalIterator<E> & other) const {
       return ((pos_.get() == boost::none) && (other.pos_.get() == boost::none))
              || &(pos_.get()) == &(other.pos_.get()); }] *)
Definition optional_equal (it other : OptionalIterator) : M Optionals bool :=
  o <- read_optional (pos_ it) ;;
  match o with
  | None =>
      o' <- read_optional (pos_ other) ;;
      match o' with
      | None => ret true
      | Some _ => ret (bool_decide (pos_ it = pos_ other))
      end
  | Some _ => ret (bool_decide (pos_ it = pos_ other))
  end.

(** [OptionalIterator<E> begin() const { return OptionalIterator<E>{contents_}; }] *)
Definition OptionalRange_begin (r : OptionalRange) : OptionalIterator :=
  {| pos_ := contents_ r |}.

(** [OptionalIterator<E> end() const
       { return OptionalIterator<E>{OptionalIterator<E>::typedNone()}; }] *)
Definition OptionalRange_end (r : OptionalRange) : OptionalIterator :=
  {| pos_ := typedNone |}.

(** [detail::OptionalRangeOwning<T> each(boost::optional<T> && t)]: the
    range holds what was in [t], in an object of its own. *)
Definition each_owning (t : option E) : M Optionals OptionalRange :=
  fun m => Returned ({| contents_ := optional_at (length m) |}, m ++ [t]).

(** [detail::OptionalRangeBorrowed<T> each(const boost::optional<T> & t)] *)
Definition each_borrowed (t : optional_ref) : OptionalRange :=
  {| contents_ := t |}.

(** [for (auto x : range) out.push_back(x);] from [it] on, with a bound on
    the rounds; the result also has the iterator the loop stopped at. *)
Fixpoint optional_collect (fuel : nat) (it last : OptionalIterator)
  : M Optionals (list E * OptionalIterator) :=
  match fuel with
  | 0 => ret ([], it)
  | S fuel' =>
      stop <- optional_equal it last ;;
      if stop then ret ([], it)
      else
        x <- optional_dereference it ;;
        r <- optional_collect fuel' (optional_increment it) last ;;
        ret (x :: r.1, r.2)
  end.
End Optional.

(** * Properties *)

(** ** The monad *)

Lemma bind_Returned_inv {W A B} (m : M W A) (k : A -> M W B) w r :
  bind m k w = Returned r ->
  exists a w', m w = Returned (a, w') /\ k a w' = Returned r.
Proof.
  unfold bind. destruct (m w) as [[a w']| |]; [eauto | discriminate..].
Qed.

Lemma bind_Returned {W A B} (m : M W A) (k : A -> M W B) w a w' :
  m w = Returned (a, w') -> bind m k w = k a w'.
Proof. unfold bind. intros ->. reflexivity. Qed.

(** [run H]: the computation at the head of the goal is the one [H] gives
    the result of; go on with what follows it. *)
Ltac run H := rewrite (bind_Returned _ _ _ _ _ H); cbv beta.

(** [unbind H as (a & w & Hm & Hk)]: a sequence returned, so its first
    computation returned [a] in [w], and the rest went on from there. *)
Tactic Notation "unbind" hyp(H) "as" simple_intropattern(p) :=
  apply bind_Returned_inv in H as p.

(** ** [tail], case by case *)

Section TailFacts.
Context {E Fn A : Type}.
Variable invoke : Fn -> M (World E Fn A) StreamT.
Implicit Types (w : World E Fn A) (c : Stream E Fn) (s : StreamT).

Lemma load_materialized n s w :
  n < length (cells w) ->
  load (tail_slot n) (materialized n s w) = Some (which0 s).
Proof.
  intros Hn. simpl. rewrite list_lookup_alter_eq.
  destruct (lookup_lt_is_Some_2 _ _ Hn) as [c ->]. reflexivity.
Qed.

Lemma tail_known n c s w :
  cells w !! n = Some c -> tail_ c = which0 s ->
  tail invoke n w = Returned (s, w).
Proof.
  intros Hc Ht. unfold tail, bind, read_tail_. simpl.
  rewrite Hc. simpl. rewrite Ht. simpl. rewrite Hc. simpl. rewrite Ht.
  reflexivity.
Qed.

Lemma emplace_tail_slot n s w :
  emplace which0 (tail_slot n) (temporary s) w =
    if decide (n < length (cells w))
    then Returned (tail_slot n, materialized n s w)
    else Undefined.
Proof.
  unfold emplace. simpl load. destruct (decide _) as [Hn|Hn].
  - destruct (lookup_lt_is_Some_2 _ _ Hn) as [c ->]. reflexivity.
  - rewrite (lookup_ge_None_2 (cells w) n) by lia. reflexivity.
Qed.

(** Re-constructing the slot of [n] is in place: the heap keeps its size,
    every cell keeps its head, every other cell keeps its slot, and nothing
    else in the world moves. *)
Lemma materialized_frame n s w :
  length (cells (materialized n s w)) = length (cells w) /\
  forced (materialized n s w) = forced w /\
  ambient (materialized n s w) = ambient w /\
  forall m c, cells w !! m = Some c ->
    exists c', cells (materialized n s w) !! m = Some c' /\
               head_ c' = head_ c /\ (m <> n -> c' = c).
Proof.
  simpl. rewrite length_alter. repeat split.
  intros m c Hc. destruct (decide (n = m)) as [->|Hne].
  - rewrite list_lookup_alter_eq, Hc. simpl. eexists. by repeat split.
  - rewrite list_lookup_alter_ne by done. exists c. by repeat split.
Qed.

Lemma read_tail_materialized n s w :
  n < length (cells w) ->
  read_tail_ n (materialized n s w) = Returned (which0 s, materialized n s w).
Proof. intros Hn. unfold read_tail_. by rewrite load_materialized. Qed.

Lemma tail_pending n c f w :
  cells w !! n = Some c -> tail_ c = which1 f ->
  tail invoke n w =
    match fh_ f with
    | None => Undefined
    | Some g =>
        match invoke g (set_forced (n :: forced w) w) with
        | Returned (s, w1) =>
            if decide (n < length (cells w1))
            then Returned (s, materialized n s w1)
            else Undefined
        | Thrown what => Thrown what
        | Undefined => Undefined
        end
    end.
Proof.
  intros Hc Ht. unfold tail, bind, read_tail_ at 1. simpl load.
  rewrite Hc. simpl. rewrite Ht. simpl.
  unfold uf_call. destruct (fh_ f) as [g|]; [|reflexivity].
  unfold note_forced, modify.
  destruct (invoke g _) as [[s w1]| |]; [|reflexivity..].
  rewrite emplace_tail_slot.
  destruct (decide (n < length (cells w1))) as [Hn|Hn]; [|reflexivity].
  unfold ret. cbv beta iota. rewrite read_tail_materialized; [reflexivity|done].
Qed.

Lemma tail_Undefined_unallocated n w :
  cells w !! n = None -> tail invoke n w = Undefined.
Proof. intros Hc. unfold tail, bind, read_tail_. simpl. rewrite Hc. reflexivity. Qed.

Lemma tail_Returned_inv n s w w' :
  tail invoke n w = Returned (s, w') ->
  (settled n s w /\ w' = w) \/
  (exists c g w1,
      cells w !! n = Some c /\ tail_ c = which1 (uf_make g) /\
      invoke g (set_forced (n :: forced w) w) = Returned (s, w1) /\
      n < length (cells w1) /\ w' = materialized n s w1).
Proof.
  intros Ht. destruct (cells w !! n) as [c|] eqn:Hc.
  - destruct (tail_ c) as [s0|f] eqn:Hs.
    + rewrite (tail_known n c s0 w Hc Hs) in Ht. injection Ht as -> ->.
      left. split; [|done]. unfold settled. simpl. by rewrite Hc, <- Hs.
    + rewrite (tail_pending n c f w Hc Hs) in Ht.
      destruct f as [[g|]]; simpl in Ht; [|done].
      destruct (invoke g _) as [[s1 w1]| |] eqn:Hg; [|done..].
      destruct (decide _) as [Hn|]; [|done]. injection Ht as E1 E2. subst s1 w'.
      right. by exists c, g, w1.
  - by rewrite tail_Undefined_unallocated in Ht.
Qed.

Lemma settled_lookup n s w :
  settled n s w <-> exists c, cells w !! n = Some c /\ tail_ c = which0 s.
Proof.
  unfold settled. simpl. destruct (cells w !! n) as [c|]; simpl; split.
  - intros [= <-]. eauto.
  - intros (c' & [= <-] & ->). done.
  - done.
  - by intros (c' & [=] & _).
Qed.

Lemma tail_settled n s w :
  settled n s w -> tail invoke n w = Returned (s, w).
Proof. intros (c & Hc & Hs)%settled_lookup. by eapply tail_known. Qed.

(** *** What a step of a client leaves as it was *)

Hypothesis generators : allocates_only invoke.

Lemma materialized_lookup_ne n m s w :
  n <> m -> cells (materialized n s w) !! m = cells w !! m.
Proof. intros. simpl. by rewrite list_lookup_alter_ne. Qed.

Lemma step_cell w w' b c :
  step invoke w w' -> cells w !! b = Some c ->
  exists c', cells w' !! b = Some c' /\ head_ c' = head_ c /\
             (forall t, tail_ c = which0 t -> tail_ c' = which0 t).
Proof.
  intros [a s Ht|e t s Hcell|g s Hg|a ->] Hb.
  - apply tail_Returned_inv in Ht as [[_ ->]|(c0 & g & w1 & Ha & Hp & Hg & Hn & ->)].
    { eauto. }
    apply generators in Hg as [_ [new Hnew]]. simpl in Hnew.
    assert (cells w1 !! b = Some c) as Hb1.
    { rewrite Hnew. by apply lookup_app_l_Some. }
    destruct (decide (a = b)) as [->|Hne].
    + exists {| head_ := head_ c; tail_ := which0 s |}. simpl.
      rewrite list_lookup_alter_eq, Hb1. split; [done|]. split; [done|].
      intros t Ht. congruence.
    + exists c. by rewrite materialized_lookup_ne.
  - injection Hcell as _ <-. exists c. simpl. split; [|done].
    by apply lookup_app_l_Some.
  - apply generators in Hg as [_ [new Hnew]]. exists c. rewrite Hnew.
    split; [|done]. by apply lookup_app_l_Some.
  - by exists c.
Qed.

Lemma step_settled w w' n s :
  step invoke w w' -> settled n s w ->
  settled n s w' /\ invocations n w' = invocations n w.
Proof.
  intros Hstep Hn. split.
  - apply settled_lookup in Hn as (c & Hc & Hs).
    destruct (step_cell _ _ _ _ Hstep Hc) as (c' & Hc' & _ & Ht).
    apply settled_lookup. eauto.
  - destruct Hstep as [a s' Ht|e t s' Hcell|g s' Hg|a ->].
    + apply tail_Returned_inv in Ht as [[_ ->]|(c0 & g & w1 & Ha & Hp & Hg & _ & ->)].
      { done. }
      apply generators in Hg as [Hf _]. unfold invocations. simpl. rewrite Hf. simpl.
      destruct (Nat.eq_dec a n) as [->|]; [|done].
      apply settled_lookup in Hn as (c & Hc & Hs). congruence.
    + by injection Hcell as _ <-.
    + apply generators in Hg as [Hf _]. unfold invocations. by rewrite Hf.
    + done.
Qed.

Lemma steps_settled w w' n s :
  rtc (step invoke) w w' -> settled n s w ->
  settled n s w' /\ invocations n w' = invocations n w.
Proof.
  induction 1 as [|w w1 w2 Hstep _ IH]; [done|]. intros Hn.
  destruct (step_settled _ _ _ _ Hstep Hn) as [Hn1 E1].
  destruct (IH Hn1) as [Hn2 E2]. split; [done|congruence].
Qed.

Lemma steps_cell w w' b c :
  rtc (step invoke) w w' -> cells w !! b = Some c ->
  exists c', cells w' !! b = Some c' /\ head_ c' = head_ c.
Proof.
  intros Hsteps. revert c. induction Hsteps as [|w w1 w2 Hstep _ IH]; intros c Hb.
  { eauto. }
  destruct (step_cell _ _ _ _ Hstep Hb) as (c1 & Hb1 & Hh & _).
  destruct (IH _ Hb1) as (c2 & Hb2 & Hh2). exists c2. split; [done|congruence].
Qed.


Lemma tail_times_steps k n l w w' :
  tail_times invoke k n w = Returned (l, w') -> rtc (step invoke) w w'.
Proof.
  revert l w. induction k as [|k IH]; intros l w; simpl.
  { intros [= _ <-]. done. }
  intros (s & w1 & Ht & Hk)%bind_Returned_inv.
  unbind Hk as (l' & w2 & Hk & [= _ <-]).
  eapply rtc_l; [by eapply step_tail|by eapply IH].
Qed.

(** *** What a use of the Stream leaves as it was, whatever the generators
        force *)

Lemma tail_keeps_head n m s w w' c :
  keeps_head invoke n ->
  tail invoke m w = Returned (s, w') -> cells w !! n = Some c ->
  exists c', cells w' !! n = Some c' /\ head_ c' = head_ c.
Proof.
  intros Hk Ht Hc.
  apply tail_Returned_inv in Ht as [[_ ->]|(c0 & g & w1 & _ & _ & Hg & _ & ->)].
  { eauto. }
  destruct (Hk _ _ _ _ c Hg Hc) as (c1 & Hc1 & Hh1).
  destruct (materialized_frame m s w1) as (_ & _ & _ & Hframe).
  destruct (Hframe n c1 Hc1) as (c2 & Hc2 & Hh2 & _).
  exists c2. split; [done|congruence].
Qed.

Lemma step_keeps_head n w w' c :
  keeps_head invoke n ->
  step invoke w w' -> cells w !! n = Some c ->
  exists c', cells w' !! n = Some c' /\ head_ c' = head_ c.
Proof.
  intros Hk [m s Ht|e t s Hcell|g s Hg|a ->] Hc.
  - by eapply tail_keeps_head.
  - injection Hcell as _ <-. exists c. split; [|done]. simpl.
    by apply lookup_app_l_Some.
  - by eapply Hk.
  - by exists c.
Qed.

Lemma steps_keep_head n w w' c :
  keeps_head invoke n ->
  rtc (step invoke) w w' -> cells w !! n = Some c ->
  exists c', cells w' !! n = Some c' /\ head_ c' = head_ c.
Proof.
  intros Hk Hsteps. revert c.
  induction Hsteps as [|w w1 w2 Hstep _ IH]; intros c Hc; [eauto|].
  destruct (step_keeps_head _ _ _ _ Hk Hstep Hc) as (c1 & Hc1 & Hh1).
  destruct (IH _ Hc1) as (c2 & Hc2 & Hh2). exists c2. split; [done|congruence].
Qed.




(** Generators that only allocate are among those. *)
Lemma allocates_only_keeps_head n : allocates_only invoke -> keeps_head invoke n.
Proof.
  intros Ha g w s w' c Hg Hc. apply Ha in Hg as [_ [new Hnew]].
  exists c. rewrite Hnew. split; [|done]. by apply lookup_app_l_Some.
Qed.

Lemma allocates_only_keeps_slot n : allocates_only invoke -> keeps_slot invoke n.
Proof.
  intros Ha g w s w' t Hg Hn. apply Ha in Hg as [Hf [new Hnew]]. split.
  - apply settled_lookup in Hn as (c & Hc & Hs). apply settled_lookup.
    exists c. rewrite Hnew. split; [|done]. by apply lookup_app_l_Some.
  - unfold invocations. by rewrite Hf.
Qed.


(** C9.  [head] reads the cell and writes nothing: it returns the world it
    was given.  What it returns for a cell [n] is the same after any number
    of calls of [tail] on [n], and after any other use of the Stream.  The
    generators may force cells of the Stream they belong to; they are held
    to what the class lets them do to the head of [n] ([keeps_head]): it
    has no writer. *)
Theorem head_unchanged_by_tail n c w :
  keeps_head invoke n ->
  cells w !! n = Some c ->
  head n w = Returned (head_ c, w) /\
  (forall k l w', tail_times invoke k n w = Returned (l, w') ->
                  head n w' = Returned (head_ c, w')) /\
  (forall w', rtc (step invoke) w w' -> head n w' = Returned (head_ c, w')).
Proof.
  intros Hk Hc.
  assert (forall w', rtc (step invoke) w w' -> head n w' = Returned (head_ c, w'))
    as Hsteps.
  { intros w' Hs. destruct (steps_keep_head _ _ _ _ Hk Hs Hc) as (c' & Hc' & Hh).
    unfold head. by rewrite Hc', Hh. }
  split; [apply Hsteps; done|]. split; [|done].
  intros k l w' Hk'. apply Hsteps. by eapply tail_times_steps.
Qed.

Lemma tail_forced_le n s w w' :
  tail invoke n w = Returned (s, w') ->
  length (forced w') <= S (length (forced w)).
Proof.
  intros [[_ ->]|(c0 & g & w1 & _ & _ & Hg & _ & ->)]%tail_Returned_inv; [lia|].
  apply generators in Hg as [Hf _]. simpl in *. rewrite Hf. simpl. lia.
Qed.

Lemma tail_forced_pending n s w w' :
  pending n w -> tail invoke n w = Returned (s, w') ->
  forced w' = n :: forced w.
Proof.
  intros [f Hp] [[Hs _]|(c0 & g & w1 & _ & _ & Hg & _ & ->)]%tail_Returned_inv.
  { unfold settled in Hs. congruence. }
  by apply generators in Hg as [Hf _].
Qed.

Lemma advance_forced_fresh k it it' w w' :
  fresh_run invoke k it w ->
  advance invoke k it w = Returned (it', w') ->
  length (forced w') = k + length (forced w).
Proof.
  revert it w. induction k as [|k IH]; intros it w; simpl.
  { intros _ [= _ <-]. lia. }
  intros Hfresh (it1 & w1 & Hi & Hk)%bind_Returned_inv.
  destruct it as [[c|]]; simpl in Hfresh; [|done].
  destruct Hfresh as [Hp Hfresh]. rewrite Hi in Hfresh.
  apply (IH _ _ Hfresh) in Hk. unfold increment in Hi. simpl in Hi.
  unbind Hi as (s & w2 & Ht & [= _ <-]).
  apply (tail_forced_pending _ _ _ _ Hp) in Ht. rewrite Hk, Ht. simpl. lia.
Qed.

Lemma advance_forced_le k it it' w w' :
  advance invoke k it w = Returned (it', w') ->
  length (forced w') <= k + length (forced w).
Proof.
  revert it w. induction k as [|k IH]; intros it w; simpl.
  { intros [= _ <-]. lia. }
  intros (it1 & w1 & Hi & Hk)%bind_Returned_inv.
  apply IH in Hk. destruct it as [[c|]]; unfold increment in Hi; simpl in Hi; [|done].
  unbind Hi as (s & w2 & Ht & [= _ <-]).
  apply tail_forced_le in Ht. lia.
Qed.
End TailFacts.

(** ** [map] *)

Section MapFacts.
Context {E Fn A E2 : Type}.
Variable invoke : Fn -> M (World E Fn A) StreamT.
Implicit Types (w : MapWorld E Fn A E2) (f : E -> E2).

Lemma MapF_call_eq (mf : MapF E E2) w :
  MapF_call invoke mf w =
    match SrcFn_call invoke (src_ mf) (source (ambient w)) with
    | Returned (Some c, s') =>
        match cells s' !! c with
        | Some c0 =>
            Returned (Some (length (cells w)),
                      {| cells := cells w ++ [mapped_cell (transform_ mf) c c0];
                         forced := forced w;
                         ambient := {| source := s';
                                       applied := head_ c0 :: applied (ambient w) |} |})
        | None => Undefined
        end
    | Returned (None, s') =>
        Returned (None, set_ambient {| source := s'; applied := applied (ambient w) |} w)
    | Thrown what => Thrown what
    | Undefined => Undefined
    end.
Proof.
  unfold MapF_call, bind, in_source.
  destruct (SrcFn_call _ _ _) as [[[c|] s']| |]; try reflexivity.
  unfold head. simpl. destruct (cells s' !! c) as [c0|]; reflexivity.
Qed.


Lemma map_eq this f w :
  map invoke this f w =
    match cells (source (ambient w)) !! this with
    | Some c0 =>
        Returned (Some (length (cells w)),
                  {| cells := cells w ++ [mapped_cell f this c0];
                     forced := forced w;
                     ambient := {| source := source (ambient w);
                                   applied := head_ c0 :: applied (ambient w) |} |})
    | None => Undefined
    end.
Proof. unfold map. by rewrite MapF_call_eq. Qed.

Lemma map_Returned this f c0 w :
  cells (source (ambient w)) !! this = Some c0 ->
  exists m w1, map invoke this f w = Returned (Some m, w1).
Proof. intros Hc. rewrite map_eq, Hc. eauto. Qed.

(** C10.  On a cell of the source, [map] returns at once a cell of the
    result whose head is the transform of the head of the source: the
    transform has been applied once, to that head, although nothing has been
    asked of the result.  The rest is deferred: the tail of the new cell is
    a generator that has not run, no generator has been invoked, and the
    source is as it was. *)
Theorem map_transforms_head_at_once this f c0 w :
  cells (source (ambient w)) !! this = Some c0 ->
  exists m w1,
    map invoke this f w = Returned (Some m, w1) /\
    applied (ambient w1) = head_ c0 :: applied (ambient w) /\
    head m w1 = Returned (f (head_ c0), w1) /\
    load (tail_slot m) w1 =
      Some (thunk {| src_ := TailOf this; transform_ := f |}) /\
    cells w1 = cells w ++ [mapped_cell f this c0] /\
    forced w1 = forced w /\
    source (ambient w1) = source (ambient w).
Proof.
  intros Hc. rewrite map_eq, Hc. eexists _, _. split; [reflexivity|].
  unfold head. simpl. rewrite list_lookup_middle by done. done.
Qed.

Lemma map_mirrors this f c0 w m w1 :
  cells (source (ambient w)) !! this = Some c0 ->
  map invoke this f w = Returned (Some m, w1) ->
  mirrors f (begin m) (begin this) w1 /\
  source (ambient w1) = source (ambient w) /\ forced w1 = forced w /\
  length (cells w1) = length (cells w) + 1 /\
  length (applied (ambient w1)) = length (applied (ambient w)) + 1.
Proof.
  intros Hc. rewrite map_eq, Hc. intros [= <- <-]. simpl.
  rewrite length_app. simpl.
  split; [|repeat split; lia]. exists c0. split; [done|]. by apply list_lookup_middle.
Qed.

Lemma increment_valid (it it' : StreamIterator) (w0 w0' : World E Fn A) :
  increment invoke it w0 = Returned (it', w0') -> valid it w0.
Proof.
  destruct it as [[c|]]; unfold increment, valid; simpl; [|done].
  intros (s & w1 & Ht & _)%bind_Returned_inv.
  destruct (cells w0 !! c) eqn:Hc; [done|].
  by rewrite tail_Undefined_unallocated in Ht.
Qed.

Lemma dereference_Returned_inv (it : StreamIterator) (w0 w0' : World E Fn A) e :
  dereference it w0 = Returned (e, w0') ->
  exists c c0, location_ it = Some c /\ cells w0 !! c = Some c0 /\
               e = head_ c0 /\ w0' = w0.
Proof.
  destruct it as [[c|]]; unfold dereference, head; simpl; [|done].
  destruct (cells w0 !! c) as [c0|] eqn:Hc; [|done]. intros [= <- <-].
  by exists c, c0.
Qed.

Lemma increment_mirrors f it1 it0 w it0' w0' :
  mirrors f it1 it0 w ->
  increment invoke it0 (source (ambient w)) = Returned (it0', w0') ->
  valid it0' w0' ->
  exists it1' w',
    increment (MapF_call invoke) it1 w = Returned (it1', w') /\
    source (ambient w') = w0' /\
    mirrors f it1' it0' w' /\
    forced w' = default 0 (location_ it1) :: forced w /\
    length (cells w') = length (cells w) + cells_at it0' /\
    length (applied (ambient w')) = length (applied (ambient w)) + cells_at it0'.
Proof.
  destruct it0 as [[c|]], it1 as [[m|]]; unfold mirrors; simpl; try done.
  intros (c0 & Hc & Hm) (s' & w0a & Ht & [= <- <-])%bind_Returned_inv Hv.
  unfold increment. simpl.
  assert (tail (MapF_call invoke) m w =
          Returned (s' ≫= (fun _ => Some (length (cells w))),
                    materialized m (s' ≫= (fun _ => Some (length (cells w))))
                      match s' with
                      | Some c' =>
                          {| cells := cells w ++
                               [mapped_cell f c' (default c0 (cells w0a !! c'))];
                             forced := m :: forced w;
                             ambient :=
                               {| source := w0a;
                                  applied := head_ (default c0 (cells w0a !! c'))
                                             :: applied (ambient w) |} |}
                      | None =>
                          {| cells := cells w; forced := m :: forced w;
                             ambient := {| source := w0a;
                                           applied := applied (ambient w) |} |}
                      end)) as Hm'.
  { rewrite (tail_pending _ m _ _ w Hm eq_refl). simpl.
    rewrite MapF_call_eq. simpl. rewrite Ht.
    apply lookup_lt_Some in Hm.
    destruct s' as [c'|]; simpl.
    - unfold valid in Hv. simpl in Hv. destruct Hv as [c0' Hc']. rewrite Hc'. simpl.
      rewrite decide_True; [done|]. rewrite length_app. simpl. lia.
    - rewrite decide_True by done. done. }
  run Hm'. unfold ret. eexists _, _.
  split; [reflexivity|].
  apply lookup_lt_Some in Hm. unfold cells_at.
  destruct s' as [c'|]; simpl.
  2:{ rewrite length_alter. repeat split; [done|lia..]. }
  split; [done|]. rewrite length_alter, length_app. simpl.
  split; [|repeat split; lia].
  unfold valid in Hv. simpl in Hv. destruct Hv as [c0' Hc']. rewrite Hc'. simpl.
  exists c0'. split; [done|].
  rewrite list_lookup_alter_ne by lia. by apply list_lookup_middle.
Qed.

Lemma advance_mirrors f k it1 it0 w itf wf :
  mirrors f it1 it0 w ->
  advance invoke k it0 (source (ambient w)) = Returned (itf, wf) ->
  valid itf wf ->
  exists it1' w',
    advance (MapF_call invoke) k it1 w = Returned (it1', w') /\
    source (ambient w') = wf /\
    mirrors f it1' itf w' /\
    length (forced w') = k + length (forced w) /\
    length (cells w') + cells_at it0 = length (cells w) + k + cells_at itf /\
    length (applied (ambient w')) + cells_at it0
      = length (applied (ambient w)) + k + cells_at itf.
Proof.
  revert it1 it0 w. induction k as [|k IH]; intros it1 it0 w Hm; simpl.
  { intros [= <- <-] _. exists it1, w. repeat split; [done..|lia|lia]. }
  intros (it0' & w0a & Hi & Hk)%bind_Returned_inv Hv.
  assert (valid it0' w0a) as Hv'.
  { destruct k as [|k]; simpl in Hk.
    - by injection Hk as -> ->.
    - unbind Hk as (? & ? & Hi' & _). by eapply increment_valid. }
  destruct (increment_mirrors f _ _ _ _ _ Hm Hi Hv')
    as (it1a & wa & Hi1 & Hsrc & Hma & Hf & Hcells & Happ).
  subst w0a.
  destruct (IH _ _ _ Hma Hk Hv) as (it1' & w' & Hk1 & Hsrc' & Hm' & Hf' & Hcells' & Happ').
  exists it1', w'. run Hi1.
  split; [done|]. split; [done|]. split; [done|].
  assert (cells_at it0 = 1) as ->.
  { destruct it0 as [[c|]]; [done|]. by unfold increment in Hi. }
  rewrite Hf', Hf. simpl. lia.
Qed.

Lemma copy_n_mirrors f n it1 it0 w l wf :
  mirrors f it1 it0 w ->
  copy_n invoke n it0 (source (ambient w)) = Returned (l, wf) ->
  exists w',
    copy_n (MapF_call invoke) n it1 w = Returned (f <$> l, w') /\
    source (ambient w') = wf.
Proof.
  revert it1 it0 w l. induction n as [|n IH]; intros it1 it0 w l Hm.
  { simpl. intros [= <- <-]. by exists w. }
  cbn [copy_n].
  intros (e & w0 & Hd & Hrest)%bind_Returned_inv.
  apply dereference_Returned_inv in Hd as (c & c0 & Hloc & Hc & -> & ->).
  assert (dereference it1 w = Returned (f (head_ c0), w)) as Hd1.
  { destruct it0 as [[c'|]], it1 as [[m|]]; unfold mirrors in Hm; simpl in *; try done.
    destruct Hm as (c1 & Hc1 & Hm). unfold dereference, head. simpl.
    rewrite Hm. simpl. congruence. }
  run Hd1.
  destruct n as [|n].
  { injection Hrest as <- <-. by exists w. }
  unbind Hrest as (it0' & w0a & Hi & Hrest).
  unbind Hrest as (l' & w0b & Hn & [= <- <-]).
  assert (valid it0' w0a) as Hv.
  { cbn [copy_n] in Hn. unbind Hn as (e' & ? & Hd & _).
    apply dereference_Returned_inv in Hd as (c' & c0' & Hloc' & Hc' & _).
    unfold valid. rewrite Hloc'. eauto. }
  destruct (increment_mirrors f _ _ _ _ _ Hm Hi Hv) as (it1a & wa & Hi1 & Hsrc & Hma & _).
  subst w0a. destruct (IH _ _ _ _ Hma Hn) as (w' & Hn1 & Hsrc').
  exists w'. run Hi1. run Hn1.
  done.
Qed.

(** C2.  Let [k] steps of an iterator over the source, from the cell [this]
    on, return, and leave the source in the world [w0'].  Then [map] on
    [this] returns a cell [m] and leaves the source as it was; [k] steps of
    an iterator over the result, from [m] on, return, each of them by
    invoking one generator of the result, and they leave the source in that
    same world [w0']: forcing [k] elements of the result has done to the
    source what forcing [k] elements of the source does, no more and no
    less.  The result ends where the source ends; it has one cell for each
    cell of the source that the [k] steps have been at, and the transform
    has been applied once for each.  With generators that only allocate,
    all this has invoked at most [k] generators of the source, and exactly
    [k] when nobody had been over that part of the source before. *)
Theorem map_forces_one_for_one this f k it0 w0' w :
  valid (begin this) (source (ambient w)) ->
  advance invoke k (begin this) (source (ambient w)) = Returned (it0, w0') ->
  valid it0 w0' ->
  exists m w1 it1 w2,
    map invoke this f w = Returned (Some m, w1) /\
    source (ambient w1) = source (ambient w) /\
    advance (MapF_call invoke) k (begin m) w1 = Returned (it1, w2) /\
    source (ambient w2) = w0' /\
    length (forced w2) = k + length (forced w) /\
    (location_ it1 = None <-> location_ it0 = None) /\
    length (cells w2) = length (cells w) + k + cells_at it0 /\
    length (applied (ambient w2))
      = length (applied (ambient w)) + k + cells_at it0 /\
    (allocates_only invoke ->
     length (forced w0') <= k + length (forced (source (ambient w))) /\
     (fresh_run invoke k (begin this) (source (ambient w)) ->
      length (forced w0') = k + length (forced (source (ambient w))))).
Proof.
  intros [c0 Hc] Hk Hv.
  destruct (map_Returned this f c0 w Hc) as (m & w1 & Hmap).
  destruct (map_mirrors _ _ _ _ _ _ Hc Hmap) as (Hm & Hsrc & Hf & Hcells & Happ).
  rewrite <- Hsrc in Hk.
  destruct (advance_mirrors f k _ _ _ _ _ Hm Hk Hv)
    as (it1 & w2 & Hk1 & Hsrc2 & Hm2 & Hf2 & Hcells2 & Happ2).
  exists m, w1, it1, w2. repeat (split; [done || congruence|]).
  split.
  { unfold mirrors in Hm2.
    destruct (location_ it1), (location_ it0); [by destruct Hm2| | |]; done. }
  change (cells_at (begin this)) with 1 in *.
  split; [lia|]. split; [lia|].
  intros Hgen. rewrite <- Hsrc. split.
  - by eapply advance_forced_le.
  - intros Hfresh. by eapply advance_forced_fresh.
Qed.

End MapFacts.

Section MapIdentity.
Context {E Fn A : Type}.
Variable invoke : Fn -> M (World E Fn A) StreamT.

(** C4.  Let the source have [N] elements from the cell [this] on: reading
    the first [N] of them returns, with the heads [l].  Then [map] of the
    identity on [this] returns a cell, and reading the first [N] elements of
    the result from it returns the same [l]. *)
Theorem map_id_same_heads this N l w0' (w : MapWorld E Fn A E) :
  valid (begin this) (source (ambient w)) ->
  copy_n invoke N (begin this) (source (ambient w)) = Returned (l, w0') ->
  exists m w1 w2,
    map invoke this id w = Returned (Some m, w1) /\
    copy_n (MapF_call invoke) N (begin m) w1 = Returned (l, w2) /\
    source (ambient w2) = w0'.
Proof.
  intros [c0 Hc] HN.
  destruct (map_Returned invoke this id c0 w Hc) as (m & w1 & Hmap).
  destruct (map_mirrors _ _ _ _ _ _ _ Hc Hmap) as (Hm & Hsrc & _).
  rewrite <- Hsrc in HN.
  destruct (copy_n_mirrors _ id N _ _ _ _ _ Hm HN) as (w2 & HN1 & Hsrc2).
  exists m, w1, w2. by rewrite list_fmap_id in HN1.
Qed.
End MapIdentity.


(** ** [UniqueFunction] *)

Section UniqueFunctionFacts.
Context {Fn W Args R : Type}.
Variable dispatch : Fn -> Args -> M W R.

(** C3, as the code has it.  Moving from a [UniqueFunction] leaves it with
    an empty holder, which [operator bool] reports.  [operator()] does not
    look at that: on the moved-from handle it dereferences the empty holder,
    which is undefined behaviour, and no exception is thrown.  The handle
    moved to calls what the original called. *)
Theorem moved_from_call_is_unguarded (uf : UniqueFunction Fn) args w :
  uf_bool (uf_move uf).2 = false /\
  uf_call dispatch (uf_move uf).2 args w = Undefined /\
  (forall what, uf_call dispatch (uf_move uf).2 args w <> Thrown what) /\
  uf_call dispatch (uf_move uf).1 args w = uf_call dispatch uf args w /\
  uf_bool (uf_move uf).1 = uf_bool uf.
Proof. by destruct uf as [[g|]]. Qed.
End UniqueFunctionFacts.

(** C3, as the specification has it, fails: the call on a moved-from handle
    around the closure that returns 7 throws nothing. *)
Lemma moved_from_call_throws_nothing :
  ~ exists what,
      uf_call (fun (g : nat) (_ : unit) => ret (W:=unit) g)
              (uf_move (uf_make 7)).2 tt tt = Thrown what.
Proof. by intros [what ?]. Qed.

(** ** [emplace] *)

Section EmplaceFacts.
Context {T Arg : Type}.
Variable construct : Arg -> T.


End EmplaceFacts.


(** ** The iterator *)

Section IteratorFacts.
Context {E Fn A : Type}.
Variable invoke : Fn -> M (World E Fn A) StreamT.

(** C8.  [std::begin] of a reference to a cell is positioned at that cell,
    and reads its head; [std::begin] of the null reference compares equal
    to [end()].  The overload that consumes its argument gives the same
    iterator. *)
Theorem begin_position (r : StreamT) :
  match r with
  | Some c =>
      location_ (std_begin r) = Some c /\
      equal (std_begin r) end_ = false /\
      forall w : World E Fn A, dereference (std_begin r) w = head c w
  | None =>
      equal (std_begin r) end_ = true /\ equal (std_begin r) (std_end r) = true
  end /\
  (std_begin_consume r).1 = std_begin r.
Proof. by destruct r. Qed.

Lemma increment_known (it : StreamIterator) c0 s (w : World E Fn A) c :
  location_ it = Some c -> cells w !! c = Some c0 -> tail_ c0 = which0 s ->
  increment invoke it w = Returned ({| location_ := s |}, w).
Proof.
  intros Hl Hc Hs. unfold increment. rewrite Hl.
  by run (tail_known invoke _ _ _ _ Hc Hs).
Qed.

Lemma dereference_cell (it : StreamIterator) c0 (w : World E Fn A) c :
  location_ it = Some c -> cells w !! c = Some c0 ->
  dereference it w = Returned (head_ c0, w).
Proof. intros Hl Hc. unfold dereference, head. by rewrite Hl, Hc. Qed.

Lemma chain_length base (l : list E) : length (chain Fn base l).1 = length l.
Proof.
  induction l as [|x l IH]; [done|]. simpl. rewrite length_app. simpl. lia.
Qed.

Lemma of_list_eq (l : list E) (w : World E Fn A) :
  of_list l w =
    Returned ((chain Fn (length (cells w)) l).2,
              set_cells (cells w ++ (chain Fn (length (cells w)) l).1) w).
Proof.
  induction l as [|x l IH]; simpl.
  { unfold ret, set_cells. rewrite app_nil_r. by destruct w. }
  run IH. unfold Cell, makeShared, set_cells. simpl.
  by rewrite length_app, app_assoc.
Qed.

Lemma chain_walk base (l : list E) i x pre post (w : World E Fn A) :
  l !! i = Some x -> length pre = base ->
  cells w = pre ++ (chain Fn base l).1 ++ post ->
  advance invoke i (std_begin (chain Fn base l).2) w
    = Returned (begin (base + length l - 1 - i), w) /\
  dereference (begin (base + length l - 1 - i)) w = Returned (x, w).
Proof.
  revert i post. induction l as [|x0 l IH]; intros i post Hi Hpre Hw; [done|].
  simpl in Hw |- *.
  set (cs := (chain Fn base l).1) in *. set (t := (chain Fn base l).2) in *.
  assert (length cs = length l) as Hlen by apply chain_length.
  set (c0 := {| head_ := x0; tail_ := known t |}) in *.
  assert (cells w !! (base + length cs) = Some c0) as Hc0.
  { rewrite Hw, <- app_assoc, app_assoc. apply list_lookup_middle.
    rewrite length_app. lia. }
  destruct i as [|i]; simpl in Hi.
  - injection Hi as ->. replace (base + S (length l) - 1 - 0) with (base + length cs) by lia.
    split; [done|]. exact (dereference_cell (begin (base + length cs)) c0 w _ eq_refl Hc0).
  - pose proof (lookup_lt_Some _ _ _ Hi) as Hlt. cbn [advance].
    run (increment_known (begin (base + length cs)) c0 t w _ eq_refl Hc0 eq_refl).
    replace (base + S (length l) - 1 - S i) with (base + length l - 1 - i) by lia.
    replace {| location_ := t |} with (std_begin t) by by destruct t.
    apply (IH i ([c0] ++ post)); [done..|]. by rewrite Hw, <- app_assoc.
Qed.

(** C7.  Two iterators compare equal exactly when they hold the same
    reference: the same cell, or null both.  And two chains that are not the
    same cells do not give equal iterators, whatever their elements: build
    the same list twice; at any position of the list, the iterators over the
    two Streams read the same element and compare different. *)
Theorem equal_is_identity (it other : StreamIterator)
    (l : list E) (w : World E Fn A) (i : nat) (x : E) :
  l !! i = Some x ->
  (equal it other = true <-> location_ it = location_ other) /\
  exists p q w2 itp itq,
    (p <- of_list l ;; q <- of_list l ;; ret (p, q)) w = Returned ((p, q), w2) /\
    advance invoke i (std_begin p) w2 = Returned (itp, w2) /\
    advance invoke i (std_begin q) w2 = Returned (itq, w2) /\
    dereference itp w2 = Returned (x, w2) /\
    dereference itq w2 = Returned (x, w2) /\
    equal itp itq = false.
Proof.
  intros Hi. split; [apply bool_decide_eq_true|].
  set (n := length (cells w)).
  set (w1 := set_cells (cells w ++ (chain Fn n l).1) w).
  set (n1 := length (cells w1)).
  set (w2 := set_cells (cells w1 ++ (chain Fn n1 l).1) w1).
  exists (chain Fn n l).2, (chain Fn n1 l).2, w2,
         (begin (n + length l - 1 - i)), (begin (n1 + length l - 1 - i)).
  assert (n1 = n + length l) as Hn1.
  { unfold n1, w1. simpl. by rewrite length_app, chain_length. }
  destruct (chain_walk n l i x (cells w) (chain Fn n1 l).1 w2 Hi eq_refl) as [Hp Hdp].
  { unfold w2, w1. simpl. by rewrite app_assoc. }
  destruct (chain_walk n1 l i x (cells w1) [] w2 Hi eq_refl) as [Hq Hdq].
  { unfold w2. simpl. by rewrite app_nil_r. }
  split.
  { run (of_list_eq l w). by run (of_list_eq l w1). }
  repeat (split; [done|]).
  apply bool_decide_eq_false. simpl. apply lookup_lt_Some in Hi.
  intros [= Heq]. lia.
Qed.
End IteratorFacts.

Section OneTwo.
Context {Fn A : Type}.
Variable invoke : Fn -> M (World Z Fn A) StreamT.

(** C6.  In any world, [Cell(1, Cell(2, Nil()))] returns a Stream [s] such
    that the loop from [std::begin(s)] to [end()], given two rounds or more,
    delivers 1 and 2 and stops at an iterator equal to [end()]; the iterator
    reads 1, after one step it reads 2, and after one more step it compares
    equal to [end()]. *)
Theorem one_two_iterates (w : World Z Fn A) (fuel : nat) :
  exists s w1,
    one_two w = Returned (s, w1) /\
    collect invoke (2 + fuel) (std_begin s) w1 = Returned (([1; 2]%Z, end_), w1) /\
    (it <- advance invoke 0 (std_begin s) ;; dereference it) w1 = Returned (1%Z, w1) /\
    (it <- advance invoke 1 (std_begin s) ;; dereference it) w1 = Returned (2%Z, w1) /\
    exists it, advance invoke 2 (std_begin s) w1 = Returned (it, w1) /\
               equal it end_ = true.
Proof.
  set (n := length (cells w)).
  set (c2 := {| head_ := 2%Z; tail_ := known (Fn:=Fn) Nil |}).
  set (c1 := {| head_ := 1%Z; tail_ := known (Fn:=Fn) (Some n) |}).
  set (w1 := set_cells ((cells w ++ [c2]) ++ [c1]) w).
  assert (one_two w = Returned (Some (S n), w1)) as Hbuild.
  { unfold one_two, bind, Cell, makeShared. simpl.
    rewrite length_app. simpl. replace (length (cells w) + 1) with (S n) by lia.
    reflexivity. }
  assert (cells w1 !! n = Some c2) as H2.
  { simpl. rewrite <- app_assoc. by apply list_lookup_middle. }
  assert (cells w1 !! S n = Some c1) as H1.
  { simpl. apply list_lookup_middle. rewrite length_app. simpl. lia. }
  pose proof (increment_known invoke (begin (S n)) c1 (Some n) w1 (S n) eq_refl H1 eq_refl) as Hi1.
  pose proof (increment_known invoke (begin n) c2 None w1 n eq_refl H2 eq_refl) as Hi2.
  pose proof (dereference_cell (begin (S n)) c1 w1 (S n) eq_refl H1) as Hd1.
  pose proof (dereference_cell (begin n) c2 w1 n eq_refl H2) as Hd2.
  change {| location_ := Some n |} with (begin n) in Hi1.
  change {| location_ := None |} with end_ in Hi2.
  exists (Some (S n)), w1. split; [done|]. simpl std_begin.
  split; [|split; [|split]].
  - change (2 + fuel) with (S (S fuel)). cbn [collect].
    change (equal (begin (S n)) end_) with false. cbv iota.
    run Hd1. run Hi1.
    cbn [collect]. change (equal (begin n) end_) with false. cbv iota.
    assert (collect invoke fuel end_ w1 = Returned (([], end_), w1)) as Hend.
    { by destruct fuel. }
    unfold bind, ret. rewrite Hd2, Hi2, Hend. reflexivity.
  - simpl advance. unfold bind at 1, ret. exact Hd1.
  - simpl advance. unfold bind, ret. rewrite Hi1. exact Hd2.
  - exists end_. split; [|done]. simpl advance. unfold bind, ret.
    by rewrite Hi1, Hi2.
Qed.
End OneTwo.


(** ** The Fibonacci Stream as an instance *)

Lemma FibStreamF_first_world :
  FibStreamF_first empty_world = Returned (Some 0, fib_w0).
Proof. reflexivity. Qed.

Example main_fib_ten :
  returned (main_fib 10 empty_world) = Some [0; 1; 1; 2; 3; 5; 8; 13; 21; 34]%Z.
Proof. vm_compute. reflexivity. Qed.

Example main_fib_map_five :
  returned (main_fib_map 5 (map_world empty_world)) = Some [0; 0; 1; 2; 4]%Z.
Proof. vm_compute. reflexivity. Qed.

(** Five elements of the result read, four steps made: the source has had
    the first cell built by [first()], one tail forced by [main], and four
    by the result. *)
Example main_fib_map_forced :
  match main_fib_map 5 (map_world empty_world) with
  | Returned (_, w) =>
      Some (forced w, forced (source (ambient w)), length (cells (source (ambient w))))
  | _ => None
  end = Some ([3; 2; 1; 0], [4; 3; 2; 1; 0], 6).
Proof. vm_compute. reflexivity. Qed.

Example fib_fresh_run : fresh_run FibStreamF_call 2 (begin 0) fib_w0.
Proof. simpl. split; [by eexists|]. split; [by eexists|done]. Qed.

Lemma FibStreamF_allocates_only : allocates_only FibStreamF_call.
Proof.
  intros g w s w' [= _ <-]. simpl. eauto.
Qed.

(** *** Generators that force cells of their own Stream *)

Lemma ShareFn_keeps_head d n : keeps_head (ShareFn_call d) n.
Proof.
  induction d as [|d IH]; intros g w s w' c Hg Hc; destruct g as [|src|src];
    simpl in Hg.
  - injection Hg as _ <-. eauto.
  - done.
  - destruct (ambient w); [done|]. injection Hg as _ <-. eauto.
  - injection Hg as _ <-. eauto.
  - by eapply tail_keeps_head.
  - destruct (ambient w).
    + by eapply (tail_keeps_head (ShareFn_call d) n src s (set_ambient false w)).
    + injection Hg as _ <-. eauto.
Qed.




Lemma head_unchanged_by_tail_witness :
  cells share_w0 !! 1 = Some {| head_ := 20%Z; tail_ := thunk (TailOfG 0) |} /\
  head 1 share_w0 = Returned (20%Z, share_w0) /\
  (forall k l w', tail_times (ShareFn_call 1) k 1 share_w0 = Returned (l, w') ->
                  head 1 w' = Returned (20%Z, w')) /\
  (forall w', rtc (step (ShareFn_call 1)) share_w0 w' ->
              head 1 w' = Returned (20%Z, w')).
Proof.
  split; [reflexivity|].
  apply (head_unchanged_by_tail (ShareFn_call 1) 1
           {| head_ := 20%Z; tail_ := thunk (TailOfG 0) |} share_w0).
  - apply ShareFn_keeps_head.
  - reflexivity.
Defined.

Lemma map_transforms_head_at_once_witness :
  cells (source (ambient (map_world (E2:=Z) fib_w0))) !! 0
    = Some {| head_ := 0%Z; tail_ := thunk {| a_ := 1; b_ := 1 |} |} /\
  exists m w1,
    map FibStreamF_call 0 Z.succ (map_world fib_w0) = Returned (Some m, w1) /\
    applied (ambient w1) = [0%Z] /\
    head m w1 = Returned (1%Z, w1) /\
    load (tail_slot m) w1 = Some (thunk {| src_ := TailOf 0; transform_ := Z.succ |}) /\
    cells w1 = [mapped_cell Z.succ 0 {| head_ := 0%Z; tail_ := thunk {| a_ := 1; b_ := 1 |} |}] /\
    forced w1 = [] /\
    source (ambient w1) = fib_w0.
Proof.
  split; [reflexivity|].
  apply (map_transforms_head_at_once FibStreamF_call 0 Z.succ
           {| head_ := 0%Z; tail_ := thunk {| a_ := 1; b_ := 1 |} |}
           (map_world fib_w0)).
  reflexivity.
Defined.

Lemma map_forces_one_for_one_witness :
  advance FibStreamF_call 2 (begin 0) fib_w0 = Returned (begin 2, fib_w2) /\
  exists m w1 it1 w2,
    map FibStreamF_call 0 Z.succ (map_world fib_w0) = Returned (Some m, w1) /\
    source (ambient w1) = fib_w0 /\
    advance (MapF_call FibStreamF_call) 2 (begin m) w1 = Returned (it1, w2) /\
    source (ambient w2) = fib_w2 /\
    length (forced w2) = 2 + 0 /\
    (location_ it1 = None <-> location_ (begin 2) = None) /\
    length (cells w2) = 0 + 2 + 1 /\
    length (applied (ambient w2)) = 0 + 2 + 1 /\
    (allocates_only FibStreamF_call ->
     length (forced fib_w2) <= 2 + 0 /\
     (fresh_run FibStreamF_call 2 (begin 0) fib_w0 -> length (forced fib_w2) = 2 + 0)).
Proof.
  split; [reflexivity|].
  apply (map_forces_one_for_one FibStreamF_call 0 Z.succ 2 (begin 2) fib_w2
           (map_world fib_w0)).
  - unfold valid. simpl. eexists. reflexivity.
  - reflexivity.
  - unfold valid. simpl. eexists. reflexivity.
Defined.

Lemma map_id_same_heads_witness :
  copy_n FibStreamF_call 3 (begin 0) fib_w0 = Returned ([0; 1; 1]%Z, fib_w2) /\
  exists m w1 w2,
    map FibStreamF_call 0 id (map_world fib_w0) = Returned (Some m, w1) /\
    copy_n (MapF_call FibStreamF_call) 3 (begin m) w1 = Returned ([0; 1; 1]%Z, w2) /\
    source (ambient w2) = fib_w2.
Proof.
  split; [reflexivity|].
  apply (map_id_same_heads FibStreamF_call 0 3 [0; 1; 1]%Z fib_w2 (map_world fib_w0)).
  - unfold valid. simpl. eexists. reflexivity.
  - reflexivity.
Defined.


Lemma equal_is_identity_witness :
  [1; 2]%Z !! 1 = Some 2%Z /\
  (equal end_ end_ = true <-> location_ end_ = location_ end_) /\
  exists p q w2 itp itq,
    (p <- of_list [1; 2]%Z ;; q <- of_list [1; 2]%Z ;; ret (p, q)) fib_w0
      = Returned ((p, q), w2) /\
    advance FibStreamF_call 1 (std_begin p) w2 = Returned (itp, w2) /\
    advance FibStreamF_call 1 (std_begin q) w2 = Returned (itq, w2) /\
    dereference itp w2 = Returned (2%Z, w2) /\
    dereference itq w2 = Returned (2%Z, w2) /\
    equal itp itq = false.
Proof.
  split; [reflexivity|].
  apply (equal_is_identity FibStreamF_call end_ end_ [1; 2]%Z fib_w0 1 2%Z).
  reflexivity.
Defined.

(** * Further properties *)

(** ** Streams built from lists, and traversals *)

Section Traversals.
Context {E Fn A : Type}.
Variable invoke : Fn -> M (World E Fn A) StreamT.
Implicit Types (w : World E Fn A) (it : StreamIterator).

Lemma collect_end fuel w :
  collect invoke fuel end_ w = Returned (([], end_), w).
Proof. by destruct fuel. Qed.

Lemma of_list_forced (l : list E) w s w1 :
  of_list l w = Returned (s, w1) -> forced w1 = forced w /\ ambient w1 = ambient w.
Proof. rewrite of_list_eq. by intros [= _ <-]. Qed.

Lemma chain_collect base (l : list E) pre post w extra :
  length pre = base ->
  cells w = pre ++ (chain Fn base l).1 ++ post ->
  collect invoke (length l + extra) (std_begin (chain Fn base l).2) w
    = Returned ((l, end_), w).
Proof.
  revert post. induction l as [|x l IH]; intros post Hpre Hw.
  { apply collect_end. }
  simpl in Hw. cbn [length Nat.add collect chain snd].
  set (cs := (chain Fn base l).1) in *. set (t := (chain Fn base l).2) in *.
  set (c0 := {| head_ := x; tail_ := known t |}) in *.
  assert (cells w !! (base + length cs) = Some c0) as Hc0.
  { rewrite Hw, <- app_assoc, app_assoc. apply list_lookup_middle.
    rewrite length_app. lia. }
  change (equal (std_begin (Some (base + length cs))) end_) with false. cbv iota.
  run (dereference_cell (begin (base + length cs)) c0 w _ eq_refl Hc0).
  run (increment_known invoke (begin (base + length cs)) c0 t w _ eq_refl Hc0 eq_refl).
  replace {| location_ := t |} with (std_begin t) by by destruct t.
  assert (cells w = pre ++ cs ++ [c0] ++ post) as Hw' by by rewrite Hw, <- app_assoc.
  by run (IH ([c0] ++ post) Hpre Hw').
Qed.

(** X1.  Round trip: the Stream [Cell(x1, Cell(x2, ... Nil()))] built from
    a list, read by the loop from [std::begin] to [end()] with as many
    rounds as the list is long or more, delivers the list and stops at
    [end()]; building and reading invoke no generator and leave the state
    around as it was. *)
Theorem collect_of_list (l : list E) w (extra : nat) :
  exists s w1,
    of_list l w = Returned (s, w1) /\
    collect invoke (length l + extra) (std_begin s) w1 = Returned ((l, end_), w1) /\
    forced w1 = forced w /\ ambient w1 = ambient w.
Proof.
  eexists _, _. split; [apply of_list_eq|]. split; [|done].
  apply (chain_collect _ _ (cells w) []); [done|]. simpl. by rewrite app_nil_r.
Qed.

Lemma tail_settles c s w w1 :
  tail invoke c w = Returned (s, w1) -> settled c s w1.
Proof.
  intros [[Hs ->]|(c0 & g & w0 & _ & _ & _ & Hn & ->)]%tail_Returned_inv; [done|].
  by apply load_materialized.
Qed.

Lemma advance_steps k it it' w w' :
  advance invoke k it w = Returned (it', w') -> rtc (step invoke) w w'.
Proof.
  revert it w. induction k as [|k IH]; intros it w; simpl.
  { by intros [= _ <-]. }
  intros (it1 & w1 & Hi & Hk)%bind_Returned_inv.
  destruct it as [[c|]]; unfold increment in Hi; simpl in Hi; [|done].
  unbind Hi as (s & w2 & Ht & [= _ <-]).
  eapply rtc_l; [by eapply step_tail|by eapply IH].
Qed.

Lemma advance_again k it it' w w' :
  allocates_only invoke ->
  advance invoke k it w = Returned (it', w') ->
  forall w'', rtc (step invoke) w' w'' ->
    advance invoke k it w'' = Returned (it', w'').
Proof.
  intros Hgen. revert it w. induction k as [|k IH]; intros it w; simpl.
  { by intros [= <- <-]. }
  intros (it1 & w1 & Hi & Hk)%bind_Returned_inv w'' Hsteps.
  destruct it as [[c|]]; unfold increment in Hi; simpl in Hi; [|done].
  unbind Hi as (s & w2 & Ht & [= <- <-]).
  apply tail_settles in Ht.
  assert (settled c s w'') as Hs.
  { eapply (steps_settled invoke Hgen); [|done].
    etrans; [by eapply advance_steps|done]. }
  assert (increment invoke {| location_ := Some c |} w''
          = Returned ({| location_ := s |}, w'')) as Hi.
  { unfold increment. simpl. by run (tail_settled invoke _ _ _ Hs). }
  run Hi. by eapply IH.
Qed.

(** X3.  Going again over a part of a Stream that has been gone over is
    free: with generators that only allocate, if [k] steps from [it] have
    returned [it'], then the same [k] steps from [it], made at once or after
    any other use of the Stream, return the same [it'] and change nothing:
    no generator runs a second time. *)
Theorem retraversal_free k it it' w w' :
  allocates_only invoke ->
  advance invoke k it w = Returned (it', w') ->
  advance invoke k it w' = Returned (it', w') /\
  forall w'', rtc (step invoke) w' w'' ->
    advance invoke k it w'' = Returned (it', w'').
Proof.
  intros Hgen Hk. split; [|by eapply advance_again].
  by eapply advance_again.
Qed.
End Traversals.

(** ** More on [map] *)

Section MapMore.
Context {E Fn A E2 : Type}.
Variable invoke : Fn -> M (World E Fn A) StreamT.
Implicit Types (w : MapWorld E Fn A E2) (f : E -> E2).

Lemma collect_valid_first fuel (it itf : StreamIterator) l (w0 wf : World E Fn A) :
  collect invoke fuel it w0 = Returned ((l, itf), wf) ->
  valid itf wf -> valid it w0.
Proof.
  destruct fuel as [|fuel]; simpl.
  { by intros [= _ <- <-]. }
  destruct it as [[c|]]; [|done].
  change (equal {| location_ := Some c |} end_) with false. cbv iota.
  intros (e & w1 & Hd & _)%bind_Returned_inv _.
  apply dereference_Returned_inv in Hd as (c' & c0 & [= <-] & Hc & _).
  unfold valid. simpl. eauto.
Qed.

Lemma mirrors_equal_end f (it1 it0 : StreamIterator) w :
  mirrors f it1 it0 w -> equal it1 end_ = equal it0 end_.
Proof.
  unfold mirrors. by destruct it1 as [[m|]], it0 as [[c|]].
Qed.

Lemma mirrors_dereference f (it1 it0 : StreamIterator) w e (w0 : World E Fn A) :
  mirrors f it1 it0 w ->
  dereference it0 (source (ambient w)) = Returned (e, w0) ->
  dereference it1 w = Returned (f e, w).
Proof.
  intros Hm (c & c0 & Hloc & Hc & -> & ->)%dereference_Returned_inv.
  destruct it0 as [[c'|]], it1 as [[m|]]; unfold mirrors in Hm; simpl in *; try done.
  destruct Hm as (c1 & Hc1 & Hm). unfold dereference, head. simpl.
  rewrite Hm. simpl. congruence.
Qed.

Lemma collect_mirrors f fuel it1 it0 w l itf (wf : World E Fn A) :
  mirrors f it1 it0 w ->
  collect invoke fuel it0 (source (ambient w)) = Returned ((l, itf), wf) ->
  valid itf wf ->
  exists it1' w',
    collect (MapF_call invoke) fuel it1 w = Returned ((f <$> l, it1'), w') /\
    source (ambient w') = wf /\
    mirrors f it1' itf w'.
Proof.
  revert it1 it0 w l. induction fuel as [|fuel IH]; intros it1 it0 w l Hm.
  { simpl. intros [= <- <- <-] _. by exists it1, w. }
  cbn [collect]. rewrite (mirrors_equal_end f it1 it0 w Hm).
  destruct (equal it0 end_).
  { intros [= <- <- <-] _. by exists it1, w. }
  intros (e & w0 & Hd & Hrest)%bind_Returned_inv Hv.
  pose proof (mirrors_dereference f _ _ _ _ _ Hm Hd) as Hd1.
  apply dereference_Returned_inv in Hd as (_ & _ & _ & _ & _ & ->).
  unbind Hrest as (it0' & w0a & Hi & Hrest).
  unbind Hrest as ([l' itf'] & w0b & Hn & [= <- <- <-]).
  pose proof (collect_valid_first _ _ _ _ _ _ Hn Hv) as Hv'.
  destruct (increment_mirrors invoke f _ _ _ _ _ Hm Hi Hv') as (it1a & wa & Hi1 & Hsrc & Hma & _).
  subst w0a. destruct (IH _ _ _ _ Hma Hn Hv) as (it1' & w' & Hn1 & Hsrc' & Hm').
  exists it1', w'. run Hd1. run Hi1. by run Hn1.
Qed.

(** X2.  What [map] delivers: if reading the first [N] elements of the
    source from the cell [this] on returns the heads [l], then [map] with
    the transform [f] returns a cell, and reading the first [N] elements of
    the result returns [f] of each element of [l], in order, leaving the
    source as reading it did. *)
Theorem map_values this f N l (w0' : World E Fn A) w :
  valid (begin this) (source (ambient w)) ->
  copy_n invoke N (begin this) (source (ambient w)) = Returned (l, w0') ->
  exists m w1 w2,
    map invoke this f w = Returned (Some m, w1) /\
    copy_n (MapF_call invoke) N (begin m) w1 = Returned (f <$> l, w2) /\
    source (ambient w2) = w0'.
Proof.
  intros [c0 Hc] HN.
  destruct (map_Returned invoke this f c0 w Hc) as (m & w1 & Hmap).
  destruct (map_mirrors _ _ _ _ _ _ _ Hc Hmap) as (Hm & Hsrc & _).
  rewrite <- Hsrc in HN.
  destruct (copy_n_mirrors _ f N _ _ _ _ _ Hm HN) as (w2 & HN1 & Hsrc2).
  by exists m, w1, w2.
Qed.

(** X6.  [map] keeps the end of the Stream: if the loop from the cell
    [this] of the source to [end()] delivers [l] and stops at [itf], then
    the same loop over the result of [map] delivers [f] of each element of
    [l] and stops at [end()] exactly when the loop over the source did: when
    the source gives [Nil], so does the result. *)
Theorem map_collect this f fuel l itf (w0' : World E Fn A) w :
  valid (begin this) (source (ambient w)) ->
  collect invoke fuel (begin this) (source (ambient w)) = Returned ((l, itf), w0') ->
  valid itf w0' ->
  exists m w1 it1 w2,
    map invoke this f w = Returned (Some m, w1) /\
    collect (MapF_call invoke) fuel (begin m) w1 = Returned ((f <$> l, it1), w2) /\
    source (ambient w2) = w0' /\
    equal it1 end_ = equal itf end_.
Proof.
  intros [c0 Hc] Hl Hv.
  destruct (map_Returned invoke this f c0 w Hc) as (m & w1 & Hmap).
  destruct (map_mirrors _ _ _ _ _ _ _ Hc Hmap) as (Hm & Hsrc & _).
  rewrite <- Hsrc in Hl.
  destruct (collect_mirrors f fuel _ _ _ _ _ _ Hm Hl Hv) as (it1 & w2 & Hl1 & Hsrc2 & Hm2).
  exists m, w1, it1, w2. repeat (split; [done|]).
  by eapply mirrors_equal_end.
Qed.

End MapMore.

(** ** The generators of example/stream.cc *)

Lemma fib_step (i : nat) :
  size_t_add (fib (S i) mod 2 ^ 64) (fib (S (S i)) mod 2 ^ 64)
  = (fib (S (S (S i))) mod 2 ^ 64)%Z.
Proof.
  unfold size_t_add. rewrite <- Zplus_mod.
  change (fib (S (S (S i)))) with (fib (S (S i)) + fib (S i))%Z.
  f_equal. lia.
Qed.

Lemma fib_copy_n (n i : nat) (a : addr) (w : FibWorld) :
  cells w !! a
    = Some {| head_ := (fib i mod 2 ^ 64)%Z;
              tail_ := thunk {| a_ := (fib (S i) mod 2 ^ 64)%Z;
                                b_ := (fib (S (S i)) mod 2 ^ 64)%Z |} |} ->
  exists w',
    copy_n FibStreamF_call n (begin a) w
      = Returned ((fun j => (fib j mod 2 ^ 64)%Z) <$> seq i n, w').
Proof.
  revert i a w. induction n as [|n IH]; intros i a w Hc.
  { by exists w. }
  cbn [copy_n].
  run (dereference_cell (begin a) _ w a eq_refl Hc). cbn [head_].
  destruct n as [|n].
  { by exists w. }
  set (new := {| head_ := (fib (S i) mod 2 ^ 64)%Z;
                 tail_ := thunk {| a_ := (fib (S (S i)) mod 2 ^ 64)%Z;
                                   b_ := (fib (S (S (S i))) mod 2 ^ 64)%Z |} |}).
  set (w1 := materialized a (Some (length (cells w)))
               (set_cells (cells w ++ [new]) (set_forced (a :: forced w) w))).
  assert (increment FibStreamF_call (begin a) w
          = Returned (begin (length (cells w)), w1)) as Hi.
  { assert (tail FibStreamF_call a w = Returned (Some (length (cells w)), w1)) as Ht.
    { rewrite (tail_pending FibStreamF_call a _ _ w Hc eq_refl).
      cbn [fh_ uf_make]. unfold FibStreamF_call, Cell, makeShared. cbn [a_ b_].
      rewrite fib_step. cbn [cells set_cells set_forced].
      apply lookup_lt_Some in Hc. rewrite decide_True; [done|].
      rewrite length_app. simpl. lia. }
    unfold increment. cbn [location_ begin]. by run Ht. }
  run Hi.
  destruct (IH (S i) (length (cells w)) w1) as [w' Hrest].
  { apply lookup_lt_Some in Hc. unfold w1. simpl.
    rewrite list_lookup_alter_ne by lia. by apply list_lookup_middle. }
  exists w'. by run Hrest.
Qed.

(** X5.  The Stream of [FibStreamF::first()] is the Fibonacci sequence in
    [size_t] arithmetic: for every [n], its first [n] elements are
    [fib 0], ..., [fib (n-1)], each modulo 2^64. *)
Theorem main_fib_fibonacci (n : nat) :
  returned (main_fib n empty_world)
  = Some ((fun j => (fib j mod 2 ^ 64)%Z) <$> seq 0 n).
Proof.
  unfold main_fib. run FibStreamF_first_world.
  destruct (fib_copy_n n 0 0 fib_w0 eq_refl) as [w' Hn].
  simpl std_begin. by rewrite Hn.
Qed.

Lemma rot13_upper (i : Z) :
  (65 <= i <= 90)%Z -> rot13 i = (if i <? 78 then i + 13 else i - 13)%Z.
Proof.
  intros Hi.
  assert (i = 65 \/ i = 66 \/ i = 67 \/ i = 68 \/ i = 69 \/ i = 70 \/ i = 71 \/
          i = 72 \/ i = 73 \/ i = 74 \/ i = 75 \/ i = 76 \/ i = 77 \/ i = 78 \/
          i = 79 \/ i = 80 \/ i = 81 \/ i = 82 \/ i = 83 \/ i = 84 \/ i = 85 \/
          i = 86 \/ i = 87 \/ i = 88 \/ i = 89 \/ i = 90)%Z as Hcases by lia.
  repeat (destruct Hcases as [->|Hcases]; [reflexivity|]). by subst.
Qed.

Lemma rot13_lower (i : Z) :
  (97 <= i <= 122)%Z -> rot13 i = (if i <? 110 then i + 13 else i - 13)%Z.
Proof.
  intros Hi.
  assert (i = 97 \/ i = 98 \/ i = 99 \/ i = 100 \/ i = 101 \/ i = 102 \/
          i = 103 \/ i = 104 \/ i = 105 \/ i = 106 \/ i = 107 \/ i = 108 \/
          i = 109 \/ i = 110 \/ i = 111 \/ i = 112 \/ i = 113 \/ i = 114 \/
          i = 115 \/ i = 116 \/ i = 117 \/ i = 118 \/ i = 119 \/ i = 120 \/
          i = 121 \/ i = 122)%Z as Hcases by lia.
  repeat (destruct Hcases as [->|Hcases]; [reflexivity|]). by subst.
Qed.

Lemma rot13_other (i : Z) :
  isupper i = false -> islower i = false -> rot13 i = i.
Proof. unfold rot13, isupper, islower. by intros -> ->. Qed.

(** X7.  The character transform of [ROT13StreamF] undoes itself, and it
    keeps upper case letters upper case, lower case letters lower case, and
    every other character as it is. *)
Theorem rot13_involution (i : Z) :
  rot13 (rot13 i) = i /\
  isupper (rot13 i) = isupper i /\
  islower (rot13 i) = islower i /\
  (if isupper i || islower i then True else rot13 i = i).
Proof.
  destruct (isupper i) eqn:Hu; [|destruct (islower i) eqn:Hl].
  - assert (65 <= i <= 90)%Z as Hi by (unfold isupper in Hu; lia).
    rewrite (rot13_upper i Hi).
    destruct (Z.ltb_spec i 78).
    + rewrite rot13_upper by lia. unfold isupper, islower.
      destruct (Z.ltb_spec (i + 13) 78); repeat split; lia.
    + rewrite rot13_upper by lia. unfold isupper, islower.
      destruct (Z.ltb_spec (i - 13) 78); repeat split; lia.
  - assert (97 <= i <= 122)%Z as Hi by (unfold islower in Hl; lia).
    rewrite (rot13_lower i Hi).
    destruct (Z.ltb_spec i 110).
    + rewrite rot13_lower by lia. unfold isupper, islower.
      destruct (Z.ltb_spec (i + 13) 110); repeat split; lia.
    + rewrite rot13_lower by lia. unfold isupper, islower.
      destruct (Z.ltb_spec (i - 13) 110); repeat split; lia.
  - rewrite (rot13_other i Hu Hl). by rewrite Hu, Hl, (rot13_other i Hu Hl).
Qed.

Lemma collect_S {E Fn A} (invoke : Fn -> M (World E Fn A) StreamT) fuel c w :
  collect invoke (S fuel) (begin c) w
  = (e <- dereference (begin c) ;;
     it' <- increment invoke (begin c) ;;
     r <- collect invoke fuel it' ;;
     ret (e :: r.1, r.2)) w.
Proof. reflexivity. Qed.

Lemma ROT13StreamF_call_fresh (y : Z) (r : list Z) (w : ROT13World) :
  ambient w = fresh_istream (y :: r) ->
  ROT13StreamF_call ROT13StreamF_inp w
  = Returned (Some (length (cells w)),
              {| cells := cells w ++ [{| head_ := rot13 y;
                                         tail_ := thunk ROT13StreamF_inp |}];
                 forced := forced w;
                 ambient := fresh_istream r |}).
Proof. unfold ROT13StreamF_call. by intros ->. Qed.

Lemma ROT13StreamF_call_exhausted (w : ROT13World) :
  ambient w = fresh_istream [] ->
  ROT13StreamF_call ROT13StreamF_inp w = Undefined.
Proof. unfold ROT13StreamF_call. by intros ->. Qed.

Lemma rot13_increment (a : addr) (h y : Z) (r : list Z) (w : ROT13World) :
  cells w !! a = Some {| head_ := h; tail_ := thunk ROT13StreamF_inp |} ->
  ambient w = fresh_istream (y :: r) ->
  exists w1,
    increment ROT13StreamF_call (begin a) w
      = Returned (begin (length (cells w)), w1) /\
    cells w1 !! length (cells w)
      = Some {| head_ := rot13 y; tail_ := thunk ROT13StreamF_inp |} /\
    ambient w1 = fresh_istream r.
Proof.
  intros Hc Ha. pose proof (lookup_lt_Some _ _ _ Hc) as Hlt.
  set (w1 := materialized a (Some (length (cells w)))
               {| cells := cells w ++ [{| head_ := rot13 y;
                                          tail_ := thunk ROT13StreamF_inp |}];
                  forced := a :: forced w;
                  ambient := fresh_istream r |}).
  exists w1. split; [|split].
  - unfold increment. cbn [location_ begin].
    assert (tail ROT13StreamF_call a w = Returned (Some (length (cells w)), w1)) as Ht.
    { rewrite (tail_pending ROT13StreamF_call a _ _ w Hc eq_refl).
      cbn [fh_ uf_make].
      rewrite (ROT13StreamF_call_fresh y r (set_forced (a :: forced w) w) Ha).
      cbn [cells set_forced]. rewrite decide_True; [done|].
      rewrite length_app. simpl. lia. }
    by run Ht.
  - simpl. rewrite list_lookup_alter_ne by lia. by apply list_lookup_middle.
  - done.
Qed.

Lemma rot13_increment_exhausted (a : addr) (h : Z) (w : ROT13World) :
  cells w !! a = Some {| head_ := h; tail_ := thunk ROT13StreamF_inp |} ->
  ambient w = fresh_istream [] ->
  increment ROT13StreamF_call (begin a) w = Undefined.
Proof.
  intros Hc Ha. unfold increment, bind. cbn [location_ begin].
  rewrite (tail_pending ROT13StreamF_call a _ _ w Hc eq_refl). cbn [fh_ uf_make].
  by rewrite (ROT13StreamF_call_exhausted (set_forced (a :: forced w) w) Ha).
Qed.

Lemma rot13_copy_n (r : list Z) (a : addr) (x : Z) (w : ROT13World) :
  cells w !! a = Some {| head_ := rot13 x; tail_ := thunk ROT13StreamF_inp |} ->
  ambient w = fresh_istream r ->
  exists w',
    copy_n ROT13StreamF_call (S (length r)) (begin a) w
      = Returned (rot13 <$> x :: r, w') /\
    ambient w' = fresh_istream [].
Proof.
  revert a x w. induction r as [|y r IH]; intros a x w Hc Ha; cbn [length copy_n].
  - run (dereference_cell (begin a) _ w a eq_refl Hc). by exists w.
  - run (dereference_cell (begin a) _ w a eq_refl Hc).
    destruct (rot13_increment a _ y r w Hc Ha) as (w1 & Hi & Hc1 & Ha1).
    run Hi. destruct (IH _ y w1 Hc1 Ha1) as (w' & Hrest & Ha').
    exists w'. by run Hrest.
Qed.

Lemma rot13_collect_undefined (r : list Z) (a : addr) (h : Z) (w : ROT13World) extra :
  cells w !! a = Some {| head_ := h; tail_ := thunk ROT13StreamF_inp |} ->
  ambient w = fresh_istream r ->
  collect ROT13StreamF_call (S (length r + extra)) (begin a) w = Undefined.
Proof.
  revert a h w. induction r as [|y r IH]; intros a h w Hc Ha;
    cbn [length Nat.add]; rewrite collect_S;
    run (dereference_cell (begin a) _ w a eq_refl Hc).
  - unfold bind at 1. by rewrite (rot13_increment_exhausted a h w Hc Ha).
  - destruct (rot13_increment a _ y r w Hc Ha) as (w1 & Hi & Hc1 & Ha1).
    run Hi. unfold bind. by rewrite (IH _ _ w1 Hc1 Ha1).
Qed.

(** X8.  On an input stream on which nothing has been read and which has
    the characters [x], [r] to give, the Stream of [ROT13StreamF] delivers,
    as its first elements, the ROT13 of each character of the input, in
    order; reading them consumes the input, and [eof()] is still false
    then. *)
Theorem rot13_stream_reads (x : Z) (r : list Z) (w : ROT13World) :
  exists w',
    (s <- ROT13StreamF_call ROT13StreamF_inp ;;
     copy_n ROT13StreamF_call (length (x :: r)) (std_begin s))
      (set_ambient (fresh_istream (x :: r)) w)
    = Returned (rot13 <$> x :: r, w') /\
    rdbuf (ambient w') = [] /\ eof (ambient w') = false.
Proof.
  run (ROT13StreamF_call_fresh x r (set_ambient (fresh_istream (x :: r)) w) eq_refl).
  cbn [std_begin cells set_ambient forced].
  set (w1 := {| cells := cells w ++ [{| head_ := rot13 x;
                                        tail_ := thunk ROT13StreamF_inp |}];
                forced := forced w;
                ambient := fresh_istream r |}).
  destruct (rot13_copy_n r (length (cells w)) x w1) as (w' & Hn & Ha);
    [by apply list_lookup_middle|reflexivity|].
  exists w'. cbn [length]. rewrite Hn. by rewrite Ha.
Qed.

(** X9.  The loop of [main] over the Stream of [ROT13StreamF],
    [for(char c : ROT13StreamF(rot13)())], does not reach [end()]: on an
    input stream on which nothing has been read, [eof()] is false until an
    extraction has failed, so that after the last character the generator
    runs once more, its extraction fails and it computes with a [char] that
    has no value.  With as many rounds as the input has characters, or
    more, the behaviour of the loop is undefined. *)
Theorem rot13_stream_overruns (l : list Z) (w : ROT13World) (extra : nat) :
  (s <- ROT13StreamF_call ROT13StreamF_inp ;;
   collect ROT13StreamF_call (length l + extra) (std_begin s))
    (set_ambient (fresh_istream l) w)
  = Undefined.
Proof.
  destruct l as [|x r].
  { unfold bind.
    by rewrite (ROT13StreamF_call_exhausted (set_ambient (fresh_istream []) w) eq_refl). }
  run (ROT13StreamF_call_fresh x r (set_ambient (fresh_istream (x :: r)) w) eq_refl).
  cbn [std_begin cells set_ambient forced length Nat.add].
  set (w1 := {| cells := cells w ++ [{| head_ := rot13 x;
                                        tail_ := thunk ROT13StreamF_inp |}];
                forced := forced w;
                ambient := fresh_istream r |}).
  apply (rot13_collect_undefined r (length (cells w)) (rot13 x) w1);
    [by apply list_lookup_middle|reflexivity].
Qed.

Lemma ROT13StreamF_allocates_only : allocates_only ROT13StreamF_call.
Proof.
  intros g w s w'. unfold ROT13StreamF_call.
  destruct (eof (ambient w)).
  { intros [= _ <-]. split; [done|]. exists []. by rewrite app_nil_r. }
  destruct (extract_char (ambient w)) as [[i|] inp']; [|done].
  intros [= _ <-]. simpl. eauto.
Qed.

(** ** Storage that may hold no object yet *)

(** As [run], for a computation given with its arguments. *)
Ltac run_this H :=
  lazymatch type of H with
  | ?m ?w = Returned (?a, ?w') => rewrite (bind_Returned m _ w a w' H); cbv beta
  end.

Lemma bind_assoc {W A B C} (m : M W A) (k1 : A -> M W B) (k2 : B -> M W C) w :
  bind (bind m k1) k2 w = bind m (fun a => bind (k1 a) k2) w.
Proof. unfold bind. by destruct (m w) as [[a w']| |]. Qed.

Section MaybeUninitializedFacts.
Context {T Arg : Type}.
Variable construct : Arg -> T.
Implicit Types (h : Storage T) (blk : block T) (d : AlignedMaybeUninitializedDeleter).

Lemma destroy_Live a v h :
  blocks h !! a = Some (Live v) ->
  destroy a h = Returned (tt, {| blocks := <[a := Raw]> (blocks h);
                                 destroyed := destroyed h ++ [v] |}).
Proof. unfold destroy. by intros ->. Qed.

Lemma emplaceMaybeUninitialized_eq a blk (b : bool) (args : Arg) h :
  blocks h !! a = Some blk -> agrees b blk ->
  emplaceMaybeUninitialized construct (Some a) b args h
  = Returned ((a, true),
              {| blocks := <[a := Live (construct args)]> (blocks h);
                 destroyed := destroyed h ++ object_in blk |}).
Proof.
  intros Ha Hb. pose proof (lookup_lt_Some _ _ _ Ha) as Hlt.
  unfold emplaceMaybeUninitialized.
  destruct blk as [|v|]; simpl in Hb; [subst b..|done].
  - unfold bind, ret, construct_at. simpl. rewrite Ha. simpl. by rewrite app_nil_r.
  - cbv iota. pose proof (destroy_Live a v h Ha) as Hd. run_this Hd.
    unfold bind, ret, construct_at. simpl.
    rewrite list_lookup_insert_eq by done. by rewrite list_insert_insert_eq.
Qed.

(** X12.  [emplaceMaybeUninitialized], given storage and a flag that says
    truly whether the storage holds an object: it returns a reference to
    the same storage, which now holds the object constructed from the
    arguments; the flag has become true; the destructor has run on the
    object that was there, if there was one, and on nothing else. *)
Theorem emplaceMaybeUninitialized_in_place a blk (b : bool) (args : Arg) h :
  blocks h !! a = Some blk -> agrees b blk ->
  emplaceMaybeUninitialized construct (Some a) b args h
  = Returned ((a, true),
              {| blocks := <[a := Live (construct args)]> (blocks h);
                 destroyed := destroyed h ++ object_in blk |}).
Proof. apply emplaceMaybeUninitialized_eq. Qed.

Lemma Deleter_call_agrees a blk (b : bool) h :
  blocks h !! a = Some blk -> agrees b blk ->
  Deleter_call {| initialized_ := Some b |} (Some a) h
  = Returned ({| initialized_ := None |},
              {| blocks := <[a := Freed]> (blocks h);
                 destroyed := destroyed h ++ object_in blk |}).
Proof.
  intros Ha Hb. pose proof (lookup_lt_Some _ _ _ Ha) as Hlt.
  unfold Deleter_call, initialized. cbn [initialized_].
  assert (lift_outcome (Returned b) h = Returned (b, h)) as Hl by done.
  run_this Hl.
  destruct blk as [|v|]; simpl in Hb; [subst b..|done].
  - unfold bind, ret, delete_storage. simpl. rewrite Ha. simpl. by rewrite app_nil_r.
  - cbv beta iota. pose proof (destroy_Live a v h Ha) as Hd. run_this Hd.
    unfold bind, ret, delete_storage. simpl.
    rewrite list_lookup_insert_eq by done. by rewrite list_insert_insert_eq.
Qed.

Lemma assign_eq a blk (b : bool) (args : Arg) h :
  blocks h !! a = Some blk -> agrees b blk ->
  assign construct {| get := Some a; get_deleter := {| initialized_ := Some b |} |}
    args h
  = Returned ({| get := Some a; get_deleter := {| initialized_ := Some true |} |},
              {| blocks := <[a := Live (construct args)]> (blocks h);
                 destroyed := destroyed h ++ object_in blk |}).
Proof.
  intros Ha Hb. unfold assign, initialized. cbn [get get_deleter initialized_].
  assert (lift_outcome (Returned b) h = Returned (b, h)) as Hl by done.
  run_this Hl.
  pose proof (emplaceMaybeUninitialized_eq a blk b args h Ha Hb) as He.
  by run_this He.
Qed.

Lemma assign_all_destroy (l : list Arg) a blk (b : bool) h :
  blocks h !! a = Some blk -> agrees b blk ->
  (p' <- assign_all construct
           {| get := Some a; get_deleter := {| initialized_ := Some b |} |} l ;;
   UniqueMaybePtr_destroy p') h
  = Returned ({| get := None; get_deleter := {| initialized_ := None |} |},
              {| blocks := <[a := Freed]> (blocks h);
                 destroyed := destroyed h ++ object_in blk ++ (construct <$> l) |}).
Proof.
  revert blk b h. induction l as [|args l IH]; intros blk b h Ha Hb.
  - cbn [assign_all]. unfold bind at 1, ret at 1. unfold UniqueMaybePtr_destroy.
    cbn [get get_deleter].
    pose proof (Deleter_call_agrees a blk b h Ha Hb) as Hd. run_this Hd.
    unfold ret. simpl. by rewrite app_nil_r.
  - pose proof (lookup_lt_Some _ _ _ Ha) as Hlt.
    cbn [assign_all]. rewrite bind_assoc.
    pose proof (assign_eq a blk b args h Ha Hb) as Hassign. run_this Hassign.
    rewrite (IH (Live (construct args)) true).
    + simpl. by rewrite list_insert_insert_eq, <- !app_assoc.
    + simpl. by rewrite list_lookup_insert_eq.
    + done.
Qed.

(** X10.  Every object built in the storage of a [UniqueMaybePtr] is
    destroyed once, and nothing else is: after
    [make_unique_uninitialized], any number of assignments through
    [emplaceMaybeUninitialized] and the destruction of the pointer, the
    destructor has run on exactly the objects constructed, in the order of
    their construction (on none when nothing was assigned), and the storage
    has been given back. *)
Theorem maybe_uninitialized_lifecycle (l : list Arg) h :
  (p <- make_unique_uninitialized ;;
   p' <- assign_all construct p l ;;
   UniqueMaybePtr_destroy p') h
  = Returned ({| get := None; get_deleter := {| initialized_ := None |} |},
              {| blocks := blocks h ++ [Freed];
                 destroyed := destroyed h ++ (construct <$> l) |}).
Proof.
  unfold make_unique_uninitialized, new_storage.
  unfold bind at 1. unfold bind at 1. unfold ret at 1. cbv beta iota.
  unfold Deleter_new.
  set (h1 := {| blocks := blocks h ++ [Raw]; destroyed := destroyed h |}).
  assert (blocks h1 !! length (blocks h) = Some Raw) as Ha
    by by apply list_lookup_middle.
  rewrite (assign_all_destroy l (length (blocks h)) Raw false h1 Ha eq_refl).
  simpl. f_equal. f_equal. f_equal.
  by rewrite (insert_app_r_alt (blocks h) [Raw] (length (blocks h))), Nat.sub_diag.
Qed.

(** X11.  A deleter is good for one deletion: once it has deleted through a
    pointer that is not null, asking for its flag, setting the flag,
    assigning through [emplaceMaybeUninitialized] with its flag and deleting
    again through a pointer that is not null all throw the
    [std::runtime_error] "may be used at most once"; deleting through a null
    pointer still does nothing; and after [reset()] the flag can be asked
    for again, and is false. *)
Theorem deleter_single_use d a h d' h' :
  Deleter_call d (Some a) h = Returned (d', h') ->
  initialized d' = Thrown used_once /\
  initialize d' = Thrown used_once /\
  (forall b h2, Deleter_call d' (Some b) h2 = Thrown used_once) /\
  (forall h2, Deleter_call d' None h2 = Returned (d', h2)) /\
  (forall p args h2,
      assign construct {| get := p; get_deleter := d' |} args h2 = Thrown used_once) /\
  initialized (reset d') = Returned false.
Proof.
  unfold Deleter_call.
  intros (b & h1 & _ & Hrest)%bind_Returned_inv.
  unbind Hrest as (? & h2 & _ & Hrest). unbind Hrest as (? & h3 & _ & [= <- _]).
  done.
Qed.
End MaybeUninitializedFacts.

(** ** The flattening iterator *)

Section FlatIteratorFacts.
Context {E : Type} `{EqDecision E}.
Variable c : list (list E).
Implicit Types (it : FlatIterator) (v : list E).

Lemma outer_dereference_Some b v :
  c !! b = Some v -> outer_dereference b c = Returned (v, c).
Proof. unfold outer_dereference. by intros ->. Qed.

Lemma inner_end_Some b v :
  c !! b = Some v -> inner_end b c = Returned (Inner b (length v), c).
Proof. intros Hb. unfold inner_end. by run (outer_dereference_Some b v Hb). Qed.

Lemma inner_begin_Some b v :
  c !! b = Some v -> inner_begin b c = Returned (Inner b 0, c).
Proof. intros Hb. unfold inner_begin. by run (outer_dereference_Some b v Hb). Qed.

Lemma inner_equal_same i j j' :
  inner_equal (Inner i j) (Inner i j') c = Returned (bool_decide (j = j'), c).
Proof. unfold inner_equal. simpl. by rewrite bool_decide_eq_true_2. Qed.

Lemma concat_take_drop_S b e v :
  c !! b = Some v -> b < e ->
  concat (take (e - b) (drop b c)) = v ++ concat (take (e - S b) (drop (S b) c)).
Proof.
  intros Hb Hlt. rewrite (drop_S c v b Hb).
  replace (e - b) with (S (e - S b)) by lia. done.
Qed.

Lemma skipEmpty_loop_rest fuel b e j v :
  b < e -> e <= length c -> c !! b = Some v -> j <= length v -> e - b <= fuel ->
  exists it',
    skipEmpty_loop fuel
      {| outerPos_ := {| range_begin := b; range_end := e |}; innerPos_ := Inner b j |} c
    = Returned (it', c) /\
    at_rest c it' /\ range_end (outerPos_ it') = e /\
    remaining c it' = drop j v ++ concat (take (e - S b) (drop (S b) c)).
Proof.
  revert b j v. induction fuel as [|fuel IH]; intros b j v Hlt He Hb Hj Hfuel; [lia|].
  cbn [skipEmpty_loop outerPos_ innerPos_ range_begin].
  pose proof (inner_end_Some b v Hb) as Hend. run_this Hend.
  pose proof (inner_equal_same b j (length v)) as Heq. run_this Heq.
  destruct (decide (j = length v)) as [->|Hne].
  - rewrite bool_decide_eq_true_2 by done. cbv iota zeta.
    unfold range_empty, advance_begin. cbn [range_begin range_end].
    rewrite drop_all. destruct (decide (b + 1 = e)) as [<-|Hne].
    + rewrite bool_decide_eq_true_2 by done. eexists. split; [reflexivity|].
      repeat split; simpl; try lia.
      by replace (b + 1 - S b) with 0 by lia.
    + rewrite bool_decide_eq_false_2 by done.
      destruct (lookup_lt_is_Some_2 c (b + 1)) as [v' Hb']; [lia|].
      pose proof (inner_begin_Some (b + 1) v' Hb') as Hbegin. run_this Hbegin.
      destruct (IH (b + 1) 0 v') as (it' & Hloop & Hrest & Hend' & Hrem);
        [lia..|done|lia|lia|].
      exists it'. split; [done|]. split; [done|]. split; [done|].
      rewrite Hrem. simpl. replace (S b) with (b + 1) by lia.
      rewrite (concat_take_drop_S (b + 1) e v') by (done || lia). done.
  - rewrite bool_decide_eq_false_2 by done. eexists. split; [reflexivity|].
    repeat split; simpl; try lia.
    + exists v. split; [done|lia].
    + unfold remaining, range_contents. simpl. rewrite Hb. simpl.
      by replace (b + 1) with (S b) by lia.
Qed.

Lemma skipEmpty_rest b e j v :
  b < e -> e <= length c -> c !! b = Some v -> j <= length v ->
  exists it',
    skipEmpty
      {| outerPos_ := {| range_begin := b; range_end := e |}; innerPos_ := Inner b j |} c
    = Returned (it', c) /\
    at_rest c it' /\ range_end (outerPos_ it') = e /\
    remaining c it' = drop j v ++ concat (take (e - S b) (drop (S b) c)).
Proof.
  intros Hlt He Hb Hj. unfold skipEmpty, range_empty. cbn [outerPos_ range_begin range_end].
  rewrite bool_decide_eq_false_2 by lia.
  apply skipEmpty_loop_rest; try done. lia.
Qed.

Lemma makeFlatIterator_end e :
  makeFlatIterator e e c = Returned (flat_end e, c).
Proof.
  unfold makeFlatIterator, FlatIterator_new, skipEmpty, range_empty, bind. simpl.
  by rewrite bool_decide_eq_true_2.
Qed.

Lemma makeFlatIterator_rest b e :
  b <= e <= length c ->
  exists it,
    makeFlatIterator b e c = Returned (it, c) /\
    at_rest c it /\ range_end (outerPos_ it) = e /\
    remaining c it = concat (range_contents c {| range_begin := b; range_end := e |}).
Proof.
  intros [Hbe He]. destruct (decide (b = e)) as [->|Hne].
  - exists (flat_end e). split; [apply makeFlatIterator_end|].
    unfold at_rest, remaining, range_contents. simpl.
    replace (e - e) with 0 by lia. repeat split; lia || done.
  - destruct (lookup_lt_is_Some_2 c b) as [v Hb]; [lia|].
    unfold makeFlatIterator, FlatIterator_new, range_empty. cbn [range_begin range_end].
    rewrite bool_decide_eq_false_2 by done.
    pose proof (inner_begin_Some b v Hb) as Hbegin. run_this Hbegin.
    destruct (skipEmpty_rest b e 0 v) as (it & Hskip & Hrest & Hend & Hrem);
      [lia|done|done|lia|].
    exists it. repeat (split; [done|]). rewrite Hrem. unfold range_contents. simpl.
    by rewrite (concat_take_drop_S b e v) by (done || lia).
Qed.

Lemma range_contents_nonempty b e :
  b < e -> e <= length c ->
  range_contents c {| range_begin := b; range_end := e |}
  <> range_contents c {| range_begin := e; range_end := e |}.
Proof.
  intros Hlt He Heq. apply (f_equal length) in Heq. revert Heq.
  unfold range_contents. simpl. rewrite !length_take, !length_drop. lia.
Qed.

Lemma flat_equal_end it :
  at_rest c it ->
  flat_equal it (flat_end (range_end (outerPos_ it))) c
  = Returned (bool_decide (innerPos_ it = Singular), c).
Proof.
  destruct it as [[b e] [|i j]]; unfold at_rest; simpl.
  - intros [_ ->]. unfold flat_equal, range_equal, bind. simpl.
    by rewrite bool_decide_eq_true_2.
  - intros (Hbe & -> & Hlt & _). unfold flat_equal, range_equal, bind. simpl.
    rewrite bool_decide_eq_false_2; [done|].
    apply range_contents_nonempty; lia.
Qed.

Lemma flat_step it i j :
  at_rest c it -> innerPos_ it = Inner i j ->
  exists x it',
    flat_dereference it c = Returned (x, c) /\
    flat_increment it c = Returned (it', c) /\
    at_rest c it' /\
    range_end (outerPos_ it') = range_end (outerPos_ it) /\
    remaining c it = x :: remaining c it'.
Proof.
  destruct it as [[b e] inner]. unfold at_rest. simpl.
  intros (Hbe & Hin) ->. destruct Hin as (-> & Hlt & v & Hb & Hj).
  destruct (lookup_lt_is_Some_2 v j Hj) as [x Hx].
  destruct (skipEmpty_rest b e (S j) v) as (it' & Hskip & Hrest & Hend & Hrem);
    [done|lia|done|lia|].
  exists x, it'. split; [|split; [|split; [done|split; [done|]]]].
  - unfold flat_dereference, inner_dereference. simpl.
    run (outer_dereference_Some b v Hb). by rewrite Hx.
  - unfold flat_increment, inner_increment. simpl.
    pose proof (outer_dereference_Some b v Hb) as Hd.
    rewrite bind_assoc. run_this Hd.
    rewrite bool_decide_eq_true_2 by done. unfold bind at 1, ret at 1. exact Hskip.
  - unfold remaining at 1. simpl. rewrite Hb, Hrem. simpl.
    rewrite (drop_S v x j Hx). unfold range_contents. simpl.
    by replace (b + 1) with (S b) by lia.
Qed.

Lemma at_rest_no_remaining it :
  at_rest c it -> remaining c it = [] ->
  it = flat_end (range_end (outerPos_ it)).
Proof.
  destruct it as [[b e] [|i j]]; unfold at_rest, remaining; simpl.
  - by intros [_ ->] _.
  - intros (_ & _ & _ & v & Hb & Hj) Hnil. rewrite Hb in Hnil. simpl in Hnil.
    apply app_eq_nil in Hnil as [Hnil _]. apply (f_equal length) in Hnil.
    rewrite length_drop in Hnil. simpl in Hnil. lia.
Qed.

Lemma flat_copy_rest fuel it :
  at_rest c it -> length (remaining c it) <= fuel ->
  flat_copy fuel it (flat_end (range_end (outerPos_ it))) c
  = Returned ((remaining c it, flat_end (range_end (outerPos_ it))), c).
Proof.
  revert it. induction fuel as [|fuel IH]; intros it Hrest Hfuel.
  - assert (remaining c it = []) as Hnil by (apply length_zero_iff_nil; lia).
    simpl. unfold ret. rewrite Hnil. f_equal. f_equal. f_equal.
    by apply at_rest_no_remaining.
  - cbn [flat_copy]. pose proof (flat_equal_end it Hrest) as Heq. run_this Heq.
    destruct (innerPos_ it) as [|i j] eqn:Hinner.
    + rewrite bool_decide_eq_true_2 by done. unfold ret.
      assert (remaining c it = []) as Hnil by (unfold remaining; by rewrite Hinner).
      rewrite Hnil. f_equal. f_equal. f_equal. by apply at_rest_no_remaining.
    + rewrite bool_decide_eq_false_2 by done.
      destruct (flat_step it i j Hrest Hinner) as (x & it' & Hd & Hi & Hrest' & Hend & Hrem).
      run_this Hd. run_this Hi. rewrite Hrem in Hfuel |- *. simpl in Hfuel.
      rewrite <- Hend. pose proof (IH it' Hrest' ltac:(lia)) as Hcopy. by run_this Hcopy.
Qed.

(** X13.  The flattening iterator flattens: over a range of ranges from
    position [b] to position [e] of the outer container, [std::copy] from
    [makeFlatIterator(b, e)] to [makeFlatIterator(e, e)], with as many
    rounds as there are elements or more, delivers the concatenation of the
    inner ranges, the empty ones skipped, and stops at the past-the-end
    iterator; over the whole container it delivers the concatenation of the
    container. *)
Theorem flat_copy_flattens b e (extra : nat) :
  b <= e <= length c ->
  (first <- makeFlatIterator b e ;;
   last <- makeFlatIterator e e ;;
   flat_copy (length (concat (range_contents c {| range_begin := b; range_end := e |}))
              + extra) first last) c
  = Returned ((concat (range_contents c {| range_begin := b; range_end := e |}),
               flat_end e), c) /\
  (b = 0 -> e = length c ->
   range_contents c {| range_begin := b; range_end := e |} = c).
Proof.
  intros Hbe. split.
  - destruct (makeFlatIterator_rest b e Hbe) as (it & Hmake & Hrest & Hend & Hrem).
    run_this Hmake. pose proof (makeFlatIterator_end e) as Hlast. run_this Hlast.
    rewrite <- Hrem, <- Hend. apply flat_copy_rest; [done|lia].
  - intros -> ->. unfold range_contents. simpl.
    by rewrite Nat.sub_0_r, firstn_all.
Qed.

(** X14.  The flattening iterator rests only where it can be read: the
    iterator that [makeFlatIterator(b, e)] returns is past the end or at an
    element, never at an empty inner range nor at the end of one; and
    whenever an iterator at rest does not compare equal to the past-the-end
    iterator, reading it and stepping it are defined, the step leaves it at
    rest again, and it has moved past exactly the element read. *)
Theorem flat_iterator_rests b e :
  b <= e <= length c ->
  (exists it, makeFlatIterator b e c = Returned (it, c) /\ at_rest c it /\
              range_end (outerPos_ it) = e) /\
  forall it,
    at_rest c it ->
    flat_equal it (flat_end (range_end (outerPos_ it))) c = Returned (false, c) ->
    exists x it',
      flat_dereference it c = Returned (x, c) /\
      flat_increment it c = Returned (it', c) /\
      at_rest c it' /\
      range_end (outerPos_ it') = range_end (outerPos_ it) /\
      remaining c it = x :: remaining c it'.
Proof.
  intros Hbe. split.
  { destruct (makeFlatIterator_rest b e Hbe) as (it & Hmake & Hrest & Hend & _). eauto. }
  intros it Hrest. rewrite (flat_equal_end it Hrest).
  destruct (innerPos_ it) as [|i j] eqn:Hinner.
  { by rewrite bool_decide_eq_true_2. }
  intros _. by eapply flat_step.
Qed.

(** X15.  Comparing two flattening iterators compares, for the outer
    ranges, the elements they go over and not their positions; for two
    iterators at rest over the same container with the same end this is the
    same: they compare equal exactly when they are at the same position. *)
Theorem flat_equal_position it1 it2 :
  at_rest c it1 -> at_rest c it2 ->
  range_end (outerPos_ it1) = range_end (outerPos_ it2) ->
  flat_equal it1 it2 c = Returned (bool_decide (it1 = it2), c).
Proof.
  destruct it1 as [[b1 e1] inner1], it2 as [[b2 e2] inner2].
  unfold at_rest. simpl. intros [Hbe1 Hin1] [Hbe2 Hin2] ->.
  unfold flat_equal, range_equal, bind. cbn [outerPos_ innerPos_].
  destruct inner1 as [|i1 j1], inner2 as [|i2 j2]; simpl in Hin1, Hin2.
  - subst b1 b2. by rewrite !bool_decide_eq_true_2.
  - destruct Hin2 as (-> & Hlt & _). subst b1.
    rewrite bool_decide_eq_false_2.
    2:{ intros Heq. symmetry in Heq. by apply range_contents_nonempty in Heq; lia. }
    by rewrite bool_decide_eq_false_2.
  - destruct Hin1 as (-> & Hlt & _). subst b2.
    rewrite bool_decide_eq_false_2 by (apply range_contents_nonempty; lia).
    by rewrite bool_decide_eq_false_2.
  - destruct Hin1 as (-> & Hlt1 & _), Hin2 as (-> & Hlt2 & _).
    destruct (decide (b1 = b2)) as [->|Hne].
    + rewrite bool_decide_eq_true_2 by done. unfold inner_equal. simpl.
      rewrite bool_decide_eq_true_2 by done.
      destruct (decide (j1 = j2)) as [->|Hj].
      * by rewrite !bool_decide_eq_true_2.
      * rewrite !bool_decide_eq_false_2; [done| |done]. by intros [= ?].
    + rewrite bool_decide_eq_false_2.
      2:{ intros Heq. apply (f_equal length) in Heq. revert Heq.
          unfold range_contents. simpl. rewrite !length_take, !length_drop. lia. }
      rewrite bool_decide_eq_false_2; [done|]. by intros [= ?].
Qed.
End FlatIteratorFacts.

(** ** A [boost::optional] as a range *)

Section OptionalFacts.
Context {E : Type}.
Implicit Types (m : list (option E)) (o : option E).

Lemma optional_equal_eq (u v : OptionalIterator) m ou ov :
  read_optional (pos_ u) m = Returned (ou, m) ->
  read_optional (pos_ v) m = Returned (ov, m) ->
  optional_equal u v m
  = Returned (match ou, ov with
              | None, None => true
              | _, _ => bool_decide (pos_ u = pos_ v)
              end, m).
Proof.
  intros Hu Hv. unfold optional_equal, bind. rewrite Hu.
  destruct ou; [done|]. rewrite Hv. by destruct ov.
Qed.

Lemma optional_dereference_eq (u : OptionalIterator) m x :
  read_optional (pos_ u) m = Returned (Some x, m) ->
  optional_dereference u m = Returned (x, m).
Proof. intros Hu. unfold optional_dereference, bind. by rewrite Hu. Qed.

Lemma optional_collect_at a o m (extra : nat) :
  m !! a = Some o ->
  exists it,
    optional_collect (1 + extra) {| pos_ := optional_at a |} {| pos_ := typedNone |} m
    = Returned ((option_list o, it), m) /\
    optional_equal it {| pos_ := typedNone |} m = Returned (true, m).
Proof.
  intros Ha. cbn [Nat.add optional_collect].
  assert (read_optional (pos_ {| pos_ := optional_at a |}) m = Returned (o, m))
    as Hread by (simpl; by rewrite Ha).
  assert (read_optional (pos_ {| pos_ := typedNone |}) m = Returned (None, m))
    as Hnone by done.
  pose proof (optional_equal_eq _ _ m _ _ Hread Hnone) as Heq.
  destruct o as [x|].
  - exists {| pos_ := typedNone |}. split; [|done].
    rewrite bool_decide_eq_false_2 in Heq by done.
    run_this Heq.
    pose proof (optional_dereference_eq _ m x Hread) as Hd. run_this Hd.
    assert (optional_collect extra (optional_increment {| pos_ := optional_at a |})
              {| pos_ := typedNone |} m
            = Returned (([], {| pos_ := typedNone |}), m)) as Hrest
      by by destruct extra.
    by run_this Hrest.
  - exists {| pos_ := optional_at a |}. split; [|done]. by run_this Heq.
Qed.

(** X16.  [each] makes of a [boost::optional] the range of what it holds:
    the loop from [begin()] to [end()] of the range, with one round or
    more, delivers the value when there is one and nothing when there is
    none, and stops at an iterator that compares equal to [end()]; so for
    the range that refers to the optional as for the one that holds what
    was moved into it. *)
Theorem each_ranges_over_value a o m (extra : nat) :
  m !! a = Some o ->
  (exists it,
      optional_collect (1 + extra)
        (OptionalRange_begin (each_borrowed (optional_at a)))
        (OptionalRange_end (each_borrowed (optional_at a))) m
      = Returned ((option_list o, it), m) /\
      optional_equal it (OptionalRange_end (each_borrowed (optional_at a))) m
      = Returned (true, m)) /\
  (forall t : option E,
      exists it,
        (r <- each_owning t ;;
         optional_collect (1 + extra) (OptionalRange_begin r) (OptionalRange_end r)) m
        = Returned ((option_list t, it), m ++ [t]) /\
        optional_equal it {| pos_ := typedNone |} (m ++ [t])
        = Returned (true, m ++ [t])).
Proof.
  intros Ha. split; [by apply optional_collect_at|].
  intros t. unfold each_owning, bind at 1. cbv beta iota.
  apply optional_collect_at. by apply list_lookup_middle.
Qed.

(** X17.  The comparison of [OptionalIterator] is an equivalence on the
    iterators over optionals that are there: every iterator equals itself,
    the comparison does not depend on the side an iterator is on, and two
    iterators equal to a third are equal. *)
Theorem optional_equal_equivalence (x y z : OptionalIterator) m ox oy oz :
  read_optional (pos_ x) m = Returned (ox, m) ->
  read_optional (pos_ y) m = Returned (oy, m) ->
  read_optional (pos_ z) m = Returned (oz, m) ->
  exists xy yx yz xz,
    optional_equal x x m = Returned (true, m) /\
    optional_equal x y m = Returned (xy, m) /\
    optional_equal y x m = Returned (yx, m) /\
    optional_equal y z m = Returned (yz, m) /\
    optional_equal x z m = Returned (xz, m) /\
    xy = yx /\
    (if xy && yz then xz = true else True).
Proof.
  intros Hx Hy Hz. pose proof (fun u v ou ov => optional_equal_eq u v m ou ov) as Heq.
  eexists _, _, _, _.
  rewrite (Heq x x ox ox Hx Hx), (Heq x y ox oy Hx Hy), (Heq y x oy ox Hy Hx),
    (Heq y z oy oz Hy Hz), (Heq x z ox oz Hx Hz).
  split; [|repeat (split; [reflexivity|])].
  { destruct ox; [by rewrite bool_decide_eq_true_2|done]. }
  split.
  { destruct ox, oy; try done; apply bool_decide_ext; naive_solver. }
  destruct x as [px], y as [py], z as [pz]. simpl in *.
  destruct ox, oy, oz; simpl; try done;
    repeat case_bool_decide; simplify_eq/=; try done; congruence.
Qed.
End OptionalFacts.

(** ** The properties above at work *)

Lemma retraversal_free_witness :
  advance FibStreamF_call 2 (begin 0) fib_w0 = Returned (begin 2, fib_w2) /\
  advance FibStreamF_call 2 (begin 0) fib_w2 = Returned (begin 2, fib_w2) /\
  forall w'', rtc (step FibStreamF_call) fib_w2 w'' ->
    advance FibStreamF_call 2 (begin 0) w'' = Returned (begin 2, w'').
Proof.
  split; [reflexivity|].
  apply (retraversal_free FibStreamF_call 2 (begin 0) (begin 2) fib_w0 fib_w2).
  - exact FibStreamF_allocates_only.
  - reflexivity.
Defined.

Lemma map_values_witness :
  copy_n FibStreamF_call 3 (begin 0) fib_w0 = Returned ([0; 1; 1]%Z, fib_w2) /\
  exists m w1 w2,
    map FibStreamF_call 0 Z.succ (map_world fib_w0) = Returned (Some m, w1) /\
    copy_n (MapF_call FibStreamF_call) 3 (begin m) w1
    = Returned (Z.succ <$> [0; 1; 1]%Z, w2) /\
    source (ambient w2) = fib_w2.
Proof.
  split; [reflexivity|].
  apply (map_values FibStreamF_call 0 Z.succ 3 [0; 1; 1]%Z fib_w2 (map_world fib_w0)).
  - unfold valid. simpl. eexists. reflexivity.
  - reflexivity.
Defined.

Lemma map_collect_witness :
  collect FibStreamF_call 2 (begin 0) fib_w0
  = Returned (([0; 1]%Z, begin 2), fib_w2) /\
  exists m w1 it1 w2,
    map FibStreamF_call 0 Z.succ (map_world fib_w0) = Returned (Some m, w1) /\
    collect (MapF_call FibStreamF_call) 2 (begin m) w1
    = Returned ((Z.succ <$> [0; 1]%Z, it1), w2) /\
    source (ambient w2) = fib_w2 /\
    equal it1 end_ = equal (begin 2) end_.
Proof.
  split; [reflexivity|].
  apply (map_collect FibStreamF_call 0 Z.succ 2 [0; 1]%Z (begin 2) fib_w2
           (map_world fib_w0)).
  - unfold valid. simpl. eexists. reflexivity.
  - reflexivity.
  - unfold valid. simpl. eexists. reflexivity.
Defined.


Lemma emplaceMaybeUninitialized_in_place_witness :
  emplaceMaybeUninitialized Z.succ (Some 0) true 7%Z
    {| blocks := [Live 5%Z]; destroyed := [] |}
  = Returned ((0, true), {| blocks := [Live 8%Z]; destroyed := [5%Z] |}).
Proof.
  apply (emplaceMaybeUninitialized_in_place Z.succ 0 (Live 5%Z) true 7%Z
           {| blocks := [Live 5%Z]; destroyed := [] |}).
  - reflexivity.
  - reflexivity.
Defined.

Lemma deleter_single_use_witness :
  Deleter_call Deleter_new (Some 0) {| blocks := [Raw]; destroyed := @nil Z |}
  = Returned ({| initialized_ := None |}, {| blocks := [Freed]; destroyed := [] |}) /\
  initialized {| initialized_ := None |} = Thrown used_once /\
  (forall p (args : Z) (h2 : Storage Z),
      assign Z.succ {| get := p; get_deleter := {| initialized_ := None |} |} args h2
      = Thrown used_once).
Proof.
  split; [reflexivity|].
  pose proof (deleter_single_use Z.succ Deleter_new 0
                {| blocks := [Raw]; destroyed := @nil Z |}
                {| initialized_ := None |}
                {| blocks := [Freed]; destroyed := [] |} eq_refl) as H.
  split; [apply H|]. apply H.
Defined.

Lemma flat_copy_flattens_witness :
  (first <- makeFlatIterator 0 11 ;;
   last <- makeFlatIterator 11 11 ;;
   flat_copy 6 first last) foo
  = Returned (([0; 1; 2; 3; 4; 5]%Z, flat_end 11), foo).
Proof.
  apply (flat_copy_flattens foo 0 11 0). simpl. lia.
Defined.

Lemma flat_iterator_rests_witness :
  (exists it, makeFlatIterator 0 11 foo = Returned (it, foo) /\ at_rest foo it /\
              range_end (outerPos_ it) = 11) /\
  exists x it',
    flat_dereference
      {| outerPos_ := {| range_begin := 3; range_end := 11 |}; innerPos_ := Inner 3 2 |}
      foo = Returned (x, foo) /\
    flat_increment
      {| outerPos_ := {| range_begin := 3; range_end := 11 |}; innerPos_ := Inner 3 2 |}
      foo = Returned (it', foo) /\
    at_rest foo it' /\
    range_end (outerPos_ it') = 11 /\
    remaining foo
      {| outerPos_ := {| range_begin := 3; range_end := 11 |}; innerPos_ := Inner 3 2 |}
    = x :: remaining foo it'.
Proof.
  pose proof (flat_iterator_rests foo 0 11 ltac:(simpl; lia)) as [H1 H2].
  split; [exact H1|].
  apply (H2 {| outerPos_ := {| range_begin := 3; range_end := 11 |};
               innerPos_ := Inner 3 2 |}).
  - split; [simpl; lia|]. simpl. split; [reflexivity|]. split; [lia|].
    exists [1; 2; 3]%Z. split; [reflexivity|]. simpl. lia.
  - reflexivity.
Defined.

Lemma flat_equal_position_witness :
  flat_equal
    {| outerPos_ := {| range_begin := 3; range_end := 11 |}; innerPos_ := Inner 3 2 |}
    (flat_end 11) foo
  = Returned (false, foo).
Proof.
  apply (flat_equal_position foo
           {| outerPos_ := {| range_begin := 3; range_end := 11 |};
              innerPos_ := Inner 3 2 |}
           (flat_end 11)).
  - split; [simpl; lia|]. simpl. split; [reflexivity|]. split; [lia|].
    exists [1; 2; 3]%Z. split; [reflexivity|]. simpl. lia.
  - split; [simpl; lia|]. reflexivity.
  - reflexivity.
Defined.

Lemma each_ranges_over_value_witness :
  (exists it,
      optional_collect 1
        (OptionalRange_begin (each_borrowed (optional_at 1)))
        (OptionalRange_end (each_borrowed (optional_at 1))) [None; Some 7%Z]
      = Returned (([7%Z], it), [None; Some 7%Z]) /\
      optional_equal it (OptionalRange_end (each_borrowed (optional_at 1)))
        [None; Some 7%Z]
      = Returned (true, [None; Some 7%Z])) /\
  (forall t : option Z,
      exists it,
        (r <- each_owning t ;;
         optional_collect 1 (OptionalRange_begin r) (OptionalRange_end r))
          [None; Some 7%Z]
        = Returned ((option_list t, it), [None; Some 7%Z] ++ [t]) /\
        optional_equal it {| pos_ := typedNone |} ([None; Some 7%Z] ++ [t])
        = Returned (true, [None; Some 7%Z] ++ [t])).
Proof.
  apply (each_ranges_over_value 1 (Some 7%Z) [None; Some 7%Z] 0). reflexivity.
Defined.

Lemma optional_equal_equivalence_witness :
  exists xy yx yz xz,
    optional_equal {| pos_ := optional_at 0 |} {| pos_ := optional_at 0 |}
      [None; Some 7%Z] = Returned (true, [None; Some 7%Z]) /\
    optional_equal {| pos_ := optional_at 0 |} {| pos_ := typedNone |}
      [None; Some 7%Z] = Returned (xy, [None; Some 7%Z]) /\
    optional_equal {| pos_ := typedNone |} {| pos_ := optional_at 0 |}
      [None; Some 7%Z] = Returned (yx, [None; Some 7%Z]) /\
    optional_equal {| pos_ := typedNone |} {| pos_ := optional_at 1 |}
      [None; Some 7%Z] = Returned (yz, [None; Some 7%Z]) /\
    optional_equal {| pos_ := optional_at 0 |} {| pos_ := optional_at 1 |}
      [None; Some 7%Z] = Returned (xz, [None; Some 7%Z]) /\
    xy = yx /\
    (if xy && yz then xz = true else True).
Proof.
  apply (optional_equal_equivalence
           {| pos_ := optional_at 0 |} {| pos_ := typedNone |}
           {| pos_ := optional_at 1 |} [None; Some 7%Z] None None (Some 7%Z)).
  - reflexivity.
  - reflexivity.
  - reflexivity.
Defined.
